(** * Car-Prices-Data-Dashbord: carpriceapp.py

    A shallow embedding of the data-processing part of [carpriceapp.py]:
    the column classification ([read_csv] and [select_dtypes]), the range
    filter of the visualisation page, [scipy.stats.pearsonr] as called on
    line 225, [DataFrame.corr] (line 272) and the high-correlation
    extraction of lines 275-310.

    Floating-point values are modelled by [fv]: a finite double is its
    exact (rational) value, plus the three special values.  Arithmetic
    rounds to binary64 ([round64]).  The sign of zero is not modelled. *)

From Stdlib Require Import List Bool ZArith QArith Qminmax Lia Lqa.
From Stdlib Require Import String Ascii Sorting.Sorted Sorting.Permutation.
Import ListNotations.

(** ** Float64 values *)

Inductive fv : Type :=
| Fin (q : Q)
| NaN
| PInf
| NInf.

(** [np.isfinite] *)
Definition isfinite (v : fv) : bool :=
  match v with Fin _ => true | _ => false end.

(** IEEE equality [==]: NaN is equal to nothing. *)
Definition fv_eqb (a b : fv) : bool :=
  match a, b with
  | Fin p, Fin q => Qeq_bool p q
  | PInf, PInf => true
  | NInf, NInf => true
  | _, _ => false
  end.

(** IEEE [a >= b] and [a <= b] against a finite bound. *)
Definition fv_ge_q (a : fv) (b : Q) : bool :=
  match a with Fin p => Qle_bool b p | PInf => true | _ => false end.

Definition fv_le_q (a : fv) (b : Q) : bool :=
  match a with Fin p => Qle_bool p b | NInf => true | _ => false end.

(** IEEE [a > b] and [a < b] against a finite bound. *)
Definition fv_gt_q (a : fv) (b : Q) : bool :=
  match a with Fin p => negb (Qle_bool p b) | PInf => true | _ => false end.

Definition fv_lt_q (a : fv) (b : Q) : bool :=
  match a with Fin p => negb (Qle_bool b p) | NInf => true | _ => false end.

(** IEEE [a < b]. *)
Definition fv_lt (a b : fv) : bool :=
  match a, b with
  | Fin p, Fin q => negb (Qle_bool q p)
  | NInf, Fin _ | NInf, PInf | Fin _, PInf => true
  | _, _ => false
  end.

(** *** Rounding to binary64

    [round64 q] is the binary64 value nearest to [q], ties to even, with
    gradual underflow (the least positive double is [2^-1074]) and
    overflow to an infinity from [2^1024 - 2^970] on.  A finite result is
    written in lowest terms. *)

(** [d * 2^l <= a] *)
Definition pow2_le (d a l : Z) : bool :=
  if (0 <=? l)%Z then (d * 2 ^ l <=? a)%Z else (d <=? a * 2 ^ (- l))%Z.

(** [floor (log2 (a / d))] for [a, d > 0] *)
Definition flog2 (a d : Z) : Z :=
  let l := (Z.log2 a - Z.log2 d)%Z in
  if pow2_le d a l then l else (l - 1)%Z.

(** [num / den] rounded to the nearest integer, ties to even *)
Definition rne (num den : Z) : Z :=
  let m := (num / den)%Z in
  let r := (num mod den)%Z in
  if (2 * r <? den)%Z then m
  else if (den <? 2 * r)%Z then (m + 1)%Z
  else if Z.even m then m else (m + 1)%Z.

(** [z / 2^k] with the common factors of 2 cancelled *)
Fixpoint canon (z : Z) (k : nat) : Z * nat :=
  match k with
  | O => (z, O)
  | S k' => if Z.even z then canon (Z.div2 z) k' else (z, k)
  end.

(** The rational [z * 2^e] in lowest terms *)
Definition mkQ (z e : Z) : Q :=
  if (0 <=? e)%Z then inject_Z (z * 2 ^ e)
  else let (z', k) := canon z (Z.to_nat (- e)) in Qmake z' (Z.to_pos (2 ^ Z.of_nat k)).

Definition emin : Z := (-1074)%Z.
Definition ovf : Z := (2 ^ 1024 - 2 ^ 970)%Z.

Definition round64 (q : Q) : fv :=
  let n := Qnum q in
  let d := Zpos (Qden q) in
  if (n =? 0)%Z then Fin 0
  else if (ovf * d <=? Z.abs n)%Z then (if (n <? 0)%Z then NInf else PInf)
  else
    let a := Z.abs n in
    let e := Z.max emin (flog2 a d - 52) in
    let m := if (0 <=? e)%Z then rne a (d * 2 ^ e) else rne (a * 2 ^ (- e)) d in
    Fin (mkQ (Z.sgn n * m) e).

(** The square root of a positive rational, rounded to binary64. *)
Definition round_sqrt (q : Q) : fv :=
  let n := Qnum q in
  let d := Zpos (Qden q) in
  if (ovf * ovf * d <=? n)%Z then PInf
  else
    let e := Z.max emin (Z.div (flog2 n d) 2 - 52) in
    let num := if (0 <=? e)%Z then n else (n * 2 ^ (- 2 * e))%Z in
    let den := if (0 <=? e)%Z then (d * 2 ^ (2 * e))%Z else d in
    let t := Z.sqrt (4 * num / den) in
    let m0 := (t / 2)%Z in
    let m := if Z.even t then m0
             else if (t * t * den =? 4 * num)%Z then (if Z.even m0 then m0 else m0 + 1)%Z
             else (m0 + 1)%Z in
    Fin (mkQ m e).

(** [q] is a double, written in lowest terms. *)
Definition is_double (q : Q) : bool :=
  match round64 q with
  | Fin r => (Qnum r =? Qnum q)%Z && Pos.eqb (Qden r) (Qden q)
  | _ => false
  end.

Definition fv_double (v : fv) : bool :=
  match v with Fin q => is_double q | _ => true end.

(** A float literal of the source, e.g. [1e308]. *)
Definition f64 (q : Q) : fv := round64 q.

(** *** IEEE operations *)

Definition inf_of (neg : bool) : fv := if neg then NInf else PInf.

Definition Qneg (p : Q) : bool := negb (Qle_bool 0 p).

Definition fv_add (a b : fv) : fv :=
  match a, b with
  | Fin p, Fin q => round64 (p + q)
  | NaN, _ | _, NaN => NaN
  | PInf, NInf | NInf, PInf => NaN
  | PInf, _ | _, PInf => PInf
  | NInf, _ | _, NInf => NInf
  end.

Definition fv_neg (a : fv) : fv :=
  match a with Fin p => Fin (- p) | NaN => NaN | PInf => NInf | NInf => PInf end.

Definition fv_sub (a b : fv) : fv := fv_add a (fv_neg b).

Definition fv_mul (a b : fv) : fv :=
  match a, b with
  | Fin p, Fin q => round64 (p * q)
  | NaN, _ | _, NaN => NaN
  | Fin p, PInf | PInf, Fin p => if Qeq_bool p 0 then NaN else inf_of (Qneg p)
  | Fin p, NInf | NInf, Fin p => if Qeq_bool p 0 then NaN else inf_of (negb (Qneg p))
  | PInf, PInf | NInf, NInf => PInf
  | PInf, NInf | NInf, PInf => NInf
  end.

(** Division; a zero divisor is [+0.0]. *)
Definition fv_div (a b : fv) : fv :=
  match a, b with
  | Fin p, Fin q =>
      if Qeq_bool q 0 then (if Qeq_bool p 0 then NaN else inf_of (Qneg p))
      else round64 (p / q)
  | NaN, _ | _, NaN => NaN
  | Fin _, PInf | Fin _, NInf => Fin 0
  | PInf, Fin q => inf_of (Qneg q)
  | NInf, Fin q => inf_of (negb (Qneg q))
  | _, _ => NaN
  end.

Definition fv_sqrt (a : fv) : fv :=
  match a with
  | Fin q => if Qeq_bool q 0 then Fin 0 else if Qneg q then NaN else round_sqrt q
  | PInf => PInf
  | _ => NaN
  end.

(** [abs] *)
Definition fv_abs (a : fv) : fv :=
  match a with Fin p => Fin (if Qneg p then - p else p) | NaN => NaN | _ => PInf end.

(** [np.sign] *)
Definition fv_sign (a : fv) : fv :=
  match a with
  | Fin p => if Qeq_bool p 0 then Fin 0 else if Qle_bool p 0 then Fin (-1) else Fin 1
  | PInf => Fin 1
  | NInf => Fin (-1)
  | NaN => NaN
  end.

(** A row count as a double (counts stay below [2^53], where the
    conversion is exact). *)
Definition fv_of_nat (n : nat) : fv := Fin (inject_Z (Z.of_nat n)).

(** ** Column classification (lines 104-121)

    [pd.read_csv] gives each column the first dtype of its cast order
    int64, uint64, float64, bool, object that parses all its fields
    ([_convert_tokens] of pandas' C parser).  The int64 attempt
    ([_try_int64]) stops at the first field that is neither missing nor an
    int64 literal: an integer literal out of range raises [OverflowError],
    which retries the column as uint64 ([_try_uint64]) and reads it as
    object when that raises too; any other field just fails the attempt.
    An int64 column with a missing value is upcast to float64 and a bool
    column with one to object ([_maybe_upcast]).  A column with no rows is
    object.  [numeric_df] keeps the float64 and int64 ("int") columns,
    [categorical_columns] the object ones. *)
Module Classifier.























End Classifier.

(** ** Range filter (lines 212-215)

    [df[(df[c] >= lo) & (df[c] <= hi)]] where [lo, hi] come from the
    slider.  A row is abstract; [get] reads its value in the selected
    (numeric) column. *)
Module RangeFilter.

Section Filter.
Variable Row : Type.
Variable get : Row -> fv.

Definition filtered_data (df : list Row) (lo hi : Q) : list Row :=
  filter (fun r => fv_ge_q (get r) lo && fv_le_q (get r) hi) df.

(** The predicate of the specification: the value is a (finite) number in
    [[lo, hi]]. *)
Definition spec_in_range (lo hi : Q) (r : Row) : bool :=
  match get r with Fin q => Qle_bool lo q && Qle_bool q hi | _ => false end.

End Filter.

End RangeFilter.

(** ** [scipy.stats.pearsonr] (line 225)

    Modelled on SciPy 1.7-1.8, the release line contemporary with the
    [plt.style.use('seaborn')] call of the script.  The mean is numpy's
    ([add.reduce] by pairwise summation, then a division by the count).
    [scipy.linalg.norm] checks its argument ([check_finite=True] raises
    [ValueError] on NaN and infinities) and calls BLAS [nrm2]; [np.dot]
    calls BLAS [ddot]; the p-value uses [special.btdtr].  These three
    depend on the platform's libraries and are parameters ([kernels]). *)
Module Pearson.

Inductive outcome : Type :=
| ValueError (msg : string)
| Result (statistic pvalue : fv).

Record kernels : Type := {
  nrm2 : list fv -> fv;
  ddot : list fv -> list fv -> fv;
  btdtr : fv -> fv -> fv -> fv }.

(** [(x == x[0]).all()] *)
Definition constant (x : list fv) : bool :=
  match x with [] => true | x0 :: _ => forallb (fun v => fv_eqb v x0) x end.

(** numpy's [pairwise_sum] for float64: a plain loop below 8 elements,
    eight accumulators up to [PW_BLOCKSIZE = 128], halving beyond. *)
Fixpoint chunks8 (fuel : nat) (l : list fv) : list (list fv) :=
  match fuel with
  | O => []
  | S f => match l with [] => [] | _ => firstn 8 l :: chunks8 f (skipn 8 l) end
  end.

Definition add8 (r row : list fv) : list fv :=
  map (fun p => fv_add (fst p) (snd p)) (combine r row).

Fixpoint pairwise_sum (fuel : nat) (l : list fv) : fv :=
  let n := List.length l in
  if Nat.ltb n 8 then fold_left fv_add l (Fin 0)
  else if Nat.leb n 128 then
    let full := (n - n mod 8)%nat in
    match chunks8 n (firstn full l) with
    | [] => NaN
    | r0 :: rows =>
        let r := fold_left add8 rows r0 in
        let g k := nth k r NaN in
        let res := fv_add (fv_add (fv_add (g 0%nat) (g 1%nat)) (fv_add (g 2%nat) (g 3%nat)))
                          (fv_add (fv_add (g 4%nat) (g 5%nat)) (fv_add (g 6%nat) (g 7%nat))) in
        fold_left fv_add (skipn full l) res
    end
  else
    match fuel with
    | O => NaN
    | S f =>
        let n2 := (n / 2)%nat in
        let n2 := (n2 - n2 mod 8)%nat in
        fv_add (pairwise_sum f (firstn n2 l)) (pairwise_sum f (skipn n2 l))
    end.

(** [x.mean()]: [add.reduce] starts from the identity [0.0]. *)
Definition np_mean (x : list fv) : fv :=
  fv_div (fv_add (Fin 0) (pairwise_sum (List.length x) x)) (fv_of_nat (List.length x)).

(** [x.astype(dtype) - x.mean(dtype=dtype)] *)
Definition centred (x : list fv) : list fv :=
  let xmean := np_mean x in
  map (fun v => fv_sub v xmean) x.

(** Python's [max(min(r, 1.0), -1.0)] *)
Definition clip (r : fv) : fv :=
  let m := if fv_gt_q r 1 then Fin 1 else r in
  if fv_lt_q m (-1) then Fin (-1) else m.

Definition nonfinite_msg : string := "array must not contain infs or NaNs"%string.

Definition pearsonr (K : kernels) (x y : list fv) : outcome :=
  let n := List.length x in
  if negb (Nat.eqb n (List.length y)) then ValueError "x and y must have the same length."%string
  else if Nat.ltb n 2 then ValueError "x and y must have length at least 2."%string
  else if constant x || constant y then Result NaN NaN
  else if Nat.eqb n 2 then
    Result (fv_mul (fv_sign (fv_sub (nth 1 x NaN) (nth 0 x NaN)))
                   (fv_sign (fv_sub (nth 1 y NaN) (nth 0 y NaN))))
           (Fin 1)
  else
    let xm := centred x in
    let ym := centred y in
    if negb (forallb isfinite xm) then ValueError nonfinite_msg
    else if negb (forallb isfinite ym) then ValueError nonfinite_msg
    else
      let normxm := nrm2 K xm in
      let normym := nrm2 K ym in
      let r := clip (ddot K (map (fun a => fv_div a normxm) xm) (map (fun b => fv_div b normym) ym)) in
      let ab := fv_sub (fv_div (fv_of_nat n) (Fin 2)) (Fin 1) in
      let prob := fv_mul (Fin 2) (btdtr K ab ab (fv_mul (Fin (1 # 2)) (fv_sub (Fin 1) (fv_abs r)))) in
      Result r prob.

(** Reference BLAS: netlib's [ddot] (a left-to-right sum, its unrolled
    loop included) and its [dnrm2] up to LAPACK 3.9 (scaled sum of
    squares).  Cephes' [btdtr] is not modelled: it is NaN here, and the
    statements below that use these kernels never reach it. *)
Definition ref_ddot (a b : list fv) : fv :=
  fold_left (fun acc p => fv_add acc (fv_mul (fst p) (snd p))) (combine a b) (Fin 0).

Definition nrm2_step (st : fv * fv) (v : fv) : fv * fv :=
  let (scale, ssq) := st in
  if fv_eqb v (Fin 0) then st
  else
    let absxi := fv_abs v in
    if fv_lt scale absxi then
      let t := fv_div scale absxi in (absxi, fv_add (Fin 1) (fv_mul ssq (fv_mul t t)))
    else
      let t := fv_div absxi scale in (scale, fv_add ssq (fv_mul t t)).

Definition ref_nrm2 (x : list fv) : fv :=
  match x with
  | [] => Fin 0
  | [v] => fv_abs v
  | _ => let (scale, ssq) := fold_left nrm2_step x (Fin 0, Fin 1) in fv_mul scale (fv_sqrt ssq)
  end.

Definition netlib_kernels : kernels :=
  {| nrm2 := ref_nrm2; ddot := ref_ddot; btdtr := fun _ _ _ => NaN |}.

(** The validity mask of the specification: rows where both values are
    finite, and their number ([valid_pair_count]). *)
Definition valid_rows (x y : list fv) : list (fv * fv) :=
  filter (fun p => isfinite (fst p) && isfinite (snd p)) (combine x y).

Definition valid_pair_count (x y : list fv) : nat := List.length (valid_rows x y).

End Pearson.

(** ** [DataFrame.corr] (line 272)

    pandas' [libalgos.nancorr] with [minp = 1]: for [xi] in [range(K)] and
    [yi] in [range(xi + 1)] it runs Welford's recurrences, in float64, over
    the rows where both columns are finite ([np.isfinite]), clips
    [covxy / divisor] to [[-1, 1]] and writes it to both [result[xi, yi]]
    and [result[yi, xi]]. *)
Module CorrMatrix.

Record welford : Type := {
  nobs : nat; meanx : fv; meany : fv; ssqdmx : fv; ssqdmy : fv; covxy : fv }.

Definition welford0 : welford := {|
  nobs := 0; meanx := Fin 0; meany := Fin 0; ssqdmx := Fin 0; ssqdmy := Fin 0; covxy := Fin 0 |}.

(** [meanx += 1 / nobs * dx] and so on *)
Definition welford_step (s : welford) (vx vy : fv) : welford :=
  let nobs' := S (nobs s) in
  let dx := fv_sub vx (meanx s) in
  let dy := fv_sub vy (meany s) in
  let meanx' := fv_add (meanx s) (fv_mul (fv_div (Fin 1) (fv_of_nat nobs')) dx) in
  let meany' := fv_add (meany s) (fv_mul (fv_div (Fin 1) (fv_of_nat nobs')) dy) in
  {| nobs := nobs';
     meanx := meanx';
     meany := meany';
     ssqdmx := fv_add (ssqdmx s) (fv_mul (fv_sub vx meanx') dx);
     ssqdmy := fv_add (ssqdmy s) (fv_mul (fv_sub vy meany') dy);
     covxy := fv_add (covxy s) (fv_mul (fv_sub vx meanx') dy) |}.

Definition accumulate (s : welford) (p : fv * fv) : welford :=
  if isfinite (fst p) && isfinite (snd p) then welford_step s (fst p) (snd p) else s.

Definition nancorr_pair (cx cy : list fv) : fv :=
  let s := fold_left accumulate (combine cx cy) welford0 in
  if Nat.ltb (nobs s) 1 then NaN
  else
    let divisor := fv_sqrt (fv_mul (ssqdmx s) (ssqdmy s)) in
    if fv_eqb divisor (Fin 0) then NaN
    else
      let val := fv_div (covxy s) divisor in
      if fv_gt_q val 1 then Fin 1 else if fv_lt_q val (-1) then Fin (-1) else val.

(** Entry [(i, j)] of [numeric_df.corr()] over the columns [cols]. *)
Definition corr_matrix (cols : list (list fv)) (i j : nat) : fv :=
  if (j <=? i)%nat then nancorr_pair (nth i cols []) (nth j cols [])
  else nancorr_pair (nth j cols []) (nth i cols []).

End CorrMatrix.
(** ** High correlations (lines 275-310)

    A correlation matrix is given by its (ordered) column labels and its
    entries.  [stack] lists the entries row by row and drops NaN;
    [reset_index] and [rename] give the rows the fields [var1] ("Variable
    1"), [var2] ("Variable 2") and [corr] ("Correlation"). *)
Module HighCorr.

Record srow : Type := mk_srow { var1 : string; var2 : string; corr : fv }.

Definition is_nan (v : fv) : bool := match v with NaN => true | _ => false end.

(** [correlation_matrix.stack().reset_index().rename(...)] *)
Definition stack (cols : list string) (M : string -> string -> fv) : list srow :=
  filter (fun r => negb (is_nan (corr r)))
    (flat_map (fun a => map (fun b => mk_srow a b (M a b)) cols) cols).

(** [(hc["Variable 1"] != hc["Variable 2"]) & (hc["Correlation"] > thr)] *)
Definition keep_row (thr : Q) (r : srow) : bool :=
  negb (String.eqb (var1 r) (var2 r)) && fv_gt_q (corr r) thr.

(** The equality [drop_duplicates] uses on float keys: NaN matches NaN. *)
Definition dup_eqb (a b : fv) : bool :=
  match a, b with NaN, NaN => true | _, _ => fv_eqb a b end.

Definition seen_value (v : fv) (seen : list fv) : bool := existsb (dup_eqb v) seen.

(** [drop_duplicates(subset=["Correlation"])], [keep="first"] *)
Fixpoint drop_duplicates (seen : list fv) (l : list srow) : list srow :=
  match l with
  | [] => []
  | r :: rest =>
    if seen_value (corr r) seen then drop_duplicates seen rest
    else r :: drop_duplicates (corr r :: seen) rest
  end.

Definition high_correlations_at (thr : Q) (cols : list string) (M : string -> string -> fv)
  : list srow :=
  drop_duplicates [] (filter (keep_row thr) (stack cols M)).

(** The code's threshold is the literal [0.5]. *)
Definition high_correlations (cols : list string) (M : string -> string -> fv) : list srow :=
  high_correlations_at (1 # 2) cols M.

(** Descending key order of [sort_values(ascending=False)], NaN last. *)
Definition key_ge (a b : fv) : bool :=
  match a, b with
  | _, NaN => true
  | NaN, _ => false
  | PInf, _ => true
  | _, PInf => false
  | _, NInf => true
  | NInf, _ => false
  | Fin p, Fin q => Qle_bool q p
  end.

(** [sort_values("Correlation", ascending=False)].  NumPy's quicksort is
    not stable; the keys it sorts here are pairwise distinct (they survived
    [drop_duplicates]), so every correct sort gives this list. *)
Fixpoint insert_desc (r : srow) (l : list srow) : list srow :=
  match l with
  | [] => [r]
  | s :: rest => if key_ge (corr r) (corr s) then r :: s :: rest else s :: insert_desc r rest
  end.

Fixpoint sort_desc (l : list srow) : list srow :=
  match l with [] => [] | r :: rest => insert_desc r (sort_desc rest) end.

(** The table handed to [st.dataframe] on line 308. *)
Definition correlation_details (cols : list string) (M : string -> string -> fv) : list srow :=
  sort_desc (high_correlations cols M).

(** Position of a label in the column order ([length] when absent). *)
Fixpoint index_of (a : string) (l : list string) : nat :=
  match l with
  | [] => 0
  | b :: rest => if String.eqb a b then 0 else S (index_of a rest)
  end.

(** The concrete matrix of the specification's scenario. *)
Definition abc_matrix (a b : string) : fv :=
  if String.eqb a b then Fin 1
  else if (String.eqb a "B" && String.eqb b "C") || (String.eqb a "C" && String.eqb b "B")
  then Fin (1 # 10) else Fin (6 # 10).

(** [list(set(hc["Variable 1"]).union(set(hc["Variable 2"])))] (lines
    287-289): the columns shown in the heatmap.  The order of a Python set
    is arbitrary; only membership is used. *)
Definition correlated_columns (cols : list string) (M : string -> string -> fv) : list string :=
  let hc := high_correlations cols M in
  nodup String.string_dec (map var1 hc ++ map var2 hc).

End HighCorr.

(** ** Slider bounds (line 202)

    [numeric_df[c].min()] and [.max()] skip NaN ([skipna=True]); the
    slider starts at [(min_val, max_val)]. *)
Module Slider.

Definition isnan (v : fv) : bool := match v with NaN => true | _ => false end.

(** IEEE [a < b] on non-NaN values. *)
Definition fv_ltb (a b : fv) : bool :=
  match a, b with
  | Fin p, Fin q => negb (Qle_bool q p)
  | NInf, Fin _ | NInf, PInf | Fin _, PInf => true
  | _, _ => false
  end.

Definition series_min (l : list fv) : option fv :=
  fold_left (fun acc v =>
    if isnan v then acc
    else match acc with
         | None => Some v
         | Some m => if fv_ltb v m then Some v else Some m
         end) l None.

Definition series_max (l : list fv) : option fv :=
  fold_left (fun acc v =>
    if isnan v then acc
    else match acc with
         | None => Some v
         | Some m => if fv_ltb m v then Some v else Some m
         end) l None.

End Slider.

(** * Properties *)

(** ** Binary64 rounding *)
Module B64Facts.

Lemma round64_num0 (q : Q) : Qnum q = 0%Z -> round64 q = Fin 0.
Proof. intros H. unfold round64. rewrite H. reflexivity. Qed.

Lemma round64_small (q : Q) :
  (Z.abs (Qnum q) < ovf * Zpos (Qden q))%Z -> exists r, round64 q = Fin r.
Proof.
  intros H. unfold round64. cbv zeta. destruct (Qnum q =? 0)%Z; [eauto|].
  destruct (Z.leb_spec (ovf * Zpos (Qden q)) (Z.abs (Qnum q))); [lia | eauto].
Qed.

Lemma is_double_iff (q : Q) : is_double q = true <-> round64 q = Fin q.
Proof.
  unfold is_double. destruct (round64 q) as [r| | |]; split; try discriminate.
  - intros H. apply andb_true_iff in H as [H1 H2].
    apply Z.eqb_eq in H1. apply Pos.eqb_eq in H2.
    destruct r, q; simpl in *; subst; reflexivity.
  - intros H. inversion H. rewrite Z.eqb_refl, Pos.eqb_refl. reflexivity.
Qed.

(** Exact rational identities, as equalities of representations. *)
Lemma Qplus_0_l_syn (q : Q) : (0 + q)%Q = q.
Proof. destruct q as [[|n|n] d]; unfold Qplus; simpl; rewrite ?Pos.mul_1_r; reflexivity. Qed.

Lemma Qplus_0_r_syn (q : Q) : (q + 0)%Q = q.
Proof. destruct q as [[|n|n] d]; unfold Qplus; simpl; rewrite ?Pos.mul_1_r; reflexivity. Qed.

Lemma Qmult_1_l_syn (q : Q) : (1 * q)%Q = q.
Proof. destruct q as [[|n|n] d]; unfold Qmult; simpl; reflexivity. Qed.

Lemma Qplus_opp_num (q : Q) : Qnum (q + - q)%Q = 0%Z.
Proof. destruct q as [n d]. simpl. lia. Qed.

Lemma Qmult_0_r_num (q : Q) : Qnum (q * 0)%Q = 0%Z.
Proof. destruct q as [n d]. simpl. lia. Qed.

Lemma Qmult_comm_syn (p q : Q) : (p * q)%Q = (q * p)%Q.
Proof. destruct p as [a b], q as [c d]. unfold Qmult. simpl. rewrite Z.mul_comm, Pos.mul_comm. reflexivity. Qed.

(** *** Denominators of doubles *)

Lemma canon_spec (z : Z) (k : nat) :
  (snd (canon z k) <= k)%nat /\ Z.sgn (fst (canon z k)) = Z.sgn z.
Proof.
  revert z. induction k as [|k IH]; intros z; simpl; [lia|].
  destruct (Z.even z) eqn:E; simpl; [|lia].
  destruct (IH (Z.div2 z)) as [H1 H2]. split; [lia|]. rewrite H2.
  pose proof (Z.div2_odd z) as Hd. rewrite <- Z.negb_even, E in Hd. cbn [negb Z.b2z] in Hd.
  set (w := Z.div2 z) in *. assert (Hz : z = (2 * w)%Z) by lia.
  rewrite Hz. destruct w; reflexivity.
Qed.

Lemma mkQ_den (z e : Z) : (emin <= e)%Z ->
  exists k, (k <= 1074)%nat /\ Zpos (Qden (mkQ z e)) = (2 ^ Z.of_nat k)%Z.
Proof.
  intros He. unfold mkQ. destruct (Z.leb_spec 0 e).
  - exists O. split; [lia | reflexivity].
  - destruct (canon_spec z (Z.to_nat (- e))) as [H1 _].
    destruct (canon z (Z.to_nat (- e))) as [z' k] eqn:C. simpl in H1 |- *.
    exists k. split; [unfold emin in He; lia|].
    rewrite Z2Pos.id; [reflexivity|]. apply Z.pow_pos_nonneg; lia.
Qed.

Lemma mkQ_sgn (z e : Z) : Z.sgn (Qnum (mkQ z e)) = Z.sgn z.
Proof.
  unfold mkQ. destruct (Z.leb_spec 0 e).
  - simpl. rewrite Z.sgn_mul. rewrite (Z.sgn_pos (2 ^ e)); [lia|].
    apply Z.pow_pos_nonneg; lia.
  - destruct (canon_spec z (Z.to_nat (- e))) as [_ H2].
    destruct (canon z (Z.to_nat (- e))) as [z' k]. simpl in *. exact H2.
Qed.

Lemma round64_den (q r : Q) : round64 q = Fin r ->
  exists k, (k <= 1074)%nat /\ Zpos (Qden r) = (2 ^ Z.of_nat k)%Z.
Proof.
  unfold round64. cbv zeta. destruct (Qnum q =? 0)%Z.
  - intros H. inversion H. exists O. split; [lia | reflexivity].
  - destruct (ovf * Zpos (Qden q) <=? Z.abs (Qnum q))%Z; [destruct (Qnum q <? 0)%Z; discriminate|].
    intros H. inversion H. apply mkQ_den. apply Z.le_max_l.
Qed.

Lemma pow2_split (i j : nat) : (i <= j)%nat ->
  (2 ^ Z.of_nat j = 2 ^ Z.of_nat i * 2 ^ (Z.of_nat j - Z.of_nat i))%Z.
Proof. intros H. rewrite <- Z.pow_add_r by lia. f_equal. lia. Qed.

(** A nonzero difference of two doubles is at least [2^-1074]. *)
Lemma double_diff_bound (a b : Q) :
  is_double a = true -> is_double b = true -> ~ (a == b)%Q ->
  Qnum (b + - a)%Q <> 0%Z /\
  (Zpos (Qden (b + - a)%Q) <= Z.abs (Qnum (b + - a)%Q) * 2 ^ 1074)%Z.
Proof.
  intros Ha Hb Hab. apply is_double_iff in Ha, Hb.
  destruct (round64_den _ _ Ha) as [i [Hi Ei]].
  destruct (round64_den _ _ Hb) as [j [Hj Ej]].
  destruct a as [an ad], b as [bn bd]. simpl in *.
  unfold Qeq in Hab. simpl in Hab.
  rewrite Pos2Z.inj_mul, Ei, Ej in *.
  assert (P1074 : (2 ^ 1074 = 2 ^ Z.of_nat j * 2 ^ (1074 - Z.of_nat j))%Z).
  { rewrite <- Z.pow_add_r by lia. f_equal. lia. }
  assert (P1074' : (2 ^ 1074 = 2 ^ Z.of_nat i * 2 ^ (1074 - Z.of_nat i))%Z).
  { rewrite <- Z.pow_add_r by lia. f_equal. lia. }
  assert (G1 : (0 < 2 ^ (1074 - Z.of_nat j))%Z) by (apply Z.pow_pos_nonneg; lia).
  assert (G2 : (0 < 2 ^ (1074 - Z.of_nat i))%Z) by (apply Z.pow_pos_nonneg; lia).
  assert (Gi : (0 < 2 ^ Z.of_nat i)%Z) by (apply Z.pow_pos_nonneg; lia).
  assert (Gj : (0 < 2 ^ Z.of_nat j)%Z) by (apply Z.pow_pos_nonneg; lia).
  split; [lia|].
  destruct (Nat.le_ge_cases i j) as [L | L].
  - rewrite (pow2_split i j L) in *.
    set (u := (2 ^ Z.of_nat i)%Z) in *. set (w := (2 ^ (Z.of_nat j - Z.of_nat i))%Z) in *.
    set (v := (2 ^ (1074 - Z.of_nat j))%Z) in *.
    replace (bn * u + - an * (u * w))%Z with (u * (bn - an * w))%Z by ring.
    rewrite Z.abs_mul, (Z.abs_eq u) by lia.
    assert (N : (bn - an * w)%Z <> 0%Z) by (intros E; apply Hab; nia).
    assert (1 <= Z.abs (bn - an * w))%Z by lia.
    change (Z.pow_pos 2 1074) with (2 ^ 1074)%Z. rewrite P1074. nia.
  - rewrite (pow2_split j i L) in *.
    set (u := (2 ^ Z.of_nat j)%Z) in *. set (w := (2 ^ (Z.of_nat i - Z.of_nat j))%Z) in *.
    set (v := (2 ^ (1074 - Z.of_nat i))%Z) in *.
    replace (bn * (u * w) + - an * u)%Z with (u * (bn * w - an))%Z by ring.
    rewrite Z.abs_mul, (Z.abs_eq u) by lia.
    assert (N : (bn * w - an)%Z <> 0%Z) by (intros E; apply Hab; nia).
    assert (1 <= Z.abs (bn * w - an))%Z by lia.
    change (Z.pow_pos 2 1074) with (2 ^ 1074)%Z. rewrite P1074'. nia.
Qed.

(** *** Rounding keeps the sign of a value of at least [2^-1074] *)

Lemma pow2_le_mono (d a l l' : Z) : (0 < d)%Z -> (0 < a)%Z -> (l' <= l)%Z ->
  pow2_le d a l = true -> pow2_le d a l' = true.
Proof.
  intros Hd Ha Hl. unfold pow2_le.
  destruct (Z.leb_spec 0 l) as [L1|L1], (Z.leb_spec 0 l') as [L2|L2]; rewrite ?Z.leb_le; intros H; try lia.
  - assert (2 ^ l' <= 2 ^ l)%Z by (apply Z.pow_le_mono_r; lia). nia.
  - assert (0 < 2 ^ l)%Z by (apply Z.pow_pos_nonneg; lia).
    assert (0 < 2 ^ (- l'))%Z by (apply Z.pow_pos_nonneg; lia). nia.
  - assert (2 ^ (- l) <= 2 ^ (- l'))%Z by (apply Z.pow_le_mono_r; lia). nia.
Qed.

Lemma flog2_spec (a d : Z) : (0 < a)%Z -> (0 < d)%Z -> pow2_le d a (flog2 a d) = true.
Proof.
  intros Ha Hd. unfold flog2. cbv zeta.
  destruct (pow2_le d a (Z.log2 a - Z.log2 d)) eqn:E; auto.
  destruct (Z.log2_spec a Ha) as [A1 A2]. destruct (Z.log2_spec d Hd) as [D1 D2].
  pose proof (Z.log2_nonneg a). pose proof (Z.log2_nonneg d).
  set (A := Z.log2 a) in *. set (D := Z.log2 d) in *.
  rewrite Z.pow_succ_r in A2, D2 by lia.
  unfold pow2_le. destruct (Z.leb_spec 0 (A - D - 1)); apply Z.leb_le.
  - assert (Hs : (2 ^ A = 2 * 2 ^ D * 2 ^ (A - D - 1))%Z).
    { rewrite <- Z.pow_succ_r by lia. rewrite <- Z.pow_add_r by lia. f_equal. lia. }
    assert (0 < 2 ^ (A - D - 1))%Z by (apply Z.pow_pos_nonneg; lia). nia.
  - assert (Hs : (2 * 2 ^ D = 2 ^ A * 2 ^ (- (A - D - 1)))%Z).
    { rewrite <- Z.pow_succ_r by lia. rewrite <- Z.pow_add_r by lia. f_equal. lia. }
    assert (0 < 2 ^ (- (A - D - 1)))%Z by (apply Z.pow_pos_nonneg; lia). nia.
Qed.

Lemma rne_ge1 (num den : Z) : (0 < den)%Z -> (den <= num)%Z -> (1 <= rne num den)%Z.
Proof.
  intros Hd Hn. assert (H1 : (1 <= num / den)%Z) by (apply Z.div_le_lower_bound; lia).
  unfold rne. cbv zeta.
  destruct (2 * (num mod den) <? den)%Z; [lia|].
  destruct (den <? 2 * (num mod den))%Z; [lia|]. destruct (Z.even (num / den)); lia.
Qed.

Definition sign_of (z : Z) : fv :=
  match z with Z0 => Fin 0 | Zpos _ => Fin 1 | Zneg _ => Fin (-1) end.

Lemma fv_sign_fin (r : Q) : fv_sign (Fin r) = sign_of (Z.sgn (Qnum r)).
Proof. destruct r as [[|n|n] d]; reflexivity. Qed.

Lemma round64_sign (q : Q) :
  Qnum q <> 0%Z -> (Zpos (Qden q) <= Z.abs (Qnum q) * 2 ^ 1074)%Z ->
  fv_sign (round64 q) = fv_sign (Fin q).
Proof.
  intros Hn Hb. rewrite fv_sign_fin. unfold round64. cbv zeta.
  destruct (Z.eqb_spec (Qnum q) 0) as [E|_]; [contradiction|].
  destruct (ovf * Zpos (Qden q) <=? Z.abs (Qnum q))%Z.
  - destruct (Z.ltb_spec (Qnum q) 0); simpl.
    + destruct (Qnum q); simpl; try lia; reflexivity.
    + destruct (Qnum q); simpl; try lia; reflexivity.
  - rewrite fv_sign_fin, mkQ_sgn.
    set (a := Z.abs (Qnum q)). set (d := Zpos (Qden q)).
    assert (Ha : (0 < a)%Z) by (unfold a; lia).
    assert (Hd : (0 < d)%Z) by (unfold d; lia).
    set (e := Z.max emin (flog2 a d - 52)).
    assert (He : pow2_le d a e = true).
    { unfold e. destruct (Z.max_spec emin (flog2 a d - 52)) as [[_ M] | [_ M]]; rewrite M.
      - apply (pow2_le_mono d a (flog2 a d)); auto; [lia|]. apply flog2_spec; auto.
      - unfold pow2_le, emin. simpl. apply Z.leb_le. unfold a, d. lia. }
    assert (Hm : (1 <= (if (0 <=? e)%Z then rne a (d * 2 ^ e) else rne (a * 2 ^ (- e)) d))%Z).
    { unfold pow2_le in He. destruct (Z.leb_spec 0 e); apply Z.leb_le in He; apply rne_ge1; try lia.
      all: assert (0 < 2 ^ e)%Z by (apply Z.pow_pos_nonneg; lia); nia. }
    revert Hm. generalize (if (0 <=? e)%Z then rne a (d * 2 ^ e) else rne (a * 2 ^ (- e)) d).
    intros m Hm. rewrite Z.sgn_mul, Z.sgn_sgn, (Z.sgn_pos m) by lia.
    destruct (Qnum q); simpl; try lia; reflexivity.
Qed.

(** The difference of two distinct doubles rounds to a value of the same
    sign: it is never [0]. *)
Lemma sub_double_sign (a b : Q) :
  is_double a = true -> is_double b = true -> ~ (a == b)%Q ->
  fv_sign (fv_sub (Fin b) (Fin a)) = fv_sign (Fin (b - a)).
Proof.
  intros Ha Hb Hab. destruct (double_diff_bound a b Ha Hb Hab) as [H1 H2].
  apply round64_sign; assumption.
Qed.

(** *** Rounding stays below a power of two *)






End B64Facts.

(** ** Column classification *)
Module ClassifierFacts.
Import Classifier.






















End ClassifierFacts.

Module RangeFilterFacts.
Import RangeFilter.

Lemma in_range_code_spec (Row : Type) (get : Row -> fv) (lo hi : Q) (r : Row) :
  fv_ge_q (get r) lo && fv_le_q (get r) hi = spec_in_range Row get lo hi r.
Proof. unfold spec_in_range. destruct (get r); reflexivity. Qed.

(** C6: the range filter keeps exactly the rows, in their order and with
    their multiplicity, whose value in the column is a number in
    [[low, high]]; missing (NaN) and infinite values are dropped. *)
Theorem C6_range_filter_exact (Row : Type) (get : Row -> fv) (df : list Row) (lo hi : Q) :
  filtered_data Row get df lo hi = filter (spec_in_range Row get lo hi) df /\
  (forall r, In r (filtered_data Row get df lo hi) <->
             In r df /\ exists q, get r = Fin q /\ (lo <= q)%Q /\ (q <= hi)%Q).
Proof.
  assert (Heq : filtered_data Row get df lo hi = filter (spec_in_range Row get lo hi) df).
  { unfold filtered_data. apply filter_ext. intros r. apply in_range_code_spec. }
  split; auto. intros r. rewrite Heq, filter_In. unfold spec_in_range.
  destruct (get r) as [q| | |].
  - rewrite andb_true_iff, !Qle_bool_iff. split.
    + intros [H [H1 H2]]. eauto.
    + intros [H [q' [Hq [H1 H2]]]]. inversion Hq; subst; auto.
  - split; [intros [_ H]; discriminate | intros [_ [q [H _]]]; discriminate].
  - split; [intros [_ H]; discriminate | intros [_ [q [H _]]]; discriminate].
  - split; [intros [_ H]; discriminate | intros [_ [q [H _]]]; discriminate].
Qed.

End RangeFilterFacts.

Module HighCorrFacts.
Import HighCorr.

(** C1 (code_bug): on the scenario matrix over [A, B, C] with
    [corr(A,B) = corr(A,C) = 0.6] and [corr(B,C) = 0.1], the extractor keeps
    only [(A, B)]: [drop_duplicates(subset=["Correlation"])] discards the
    distinct pair [(A, C)] because its coefficient equals that of [(A, B)]. *)
Theorem C1_equal_coefficients_collapsed :
  high_correlations ["A"; "B"; "C"]%string abc_matrix =
  [mk_srow "A" "B" (Fin (6 # 10))]%string.
Proof. vm_compute. reflexivity. Qed.

(** *** [drop_duplicates] keeps first occurrences *)

Lemma dup_eqb_refl (v : fv) : dup_eqb v v = true.
Proof. destruct v; simpl; auto. apply Qeq_bool_iff. reflexivity. Qed.

Lemma dup_eqb_sym (a b : fv) : dup_eqb a b = dup_eqb b a.
Proof.
  destruct a, b; simpl; auto.
  apply eq_true_iff_eq. rewrite !Qeq_bool_iff. split; intros H; symmetry; exact H.
Qed.

Lemma dup_eqb_trans (a b c : fv) : dup_eqb a b = true -> dup_eqb b c = true -> dup_eqb a c = true.
Proof.
  destruct a, b, c; simpl; try discriminate; auto.
  rewrite !Qeq_bool_iff. intros H1 H2. rewrite H1. exact H2.
Qed.

Lemma seen_value_trans (u v : fv) (seen : list fv) :
  dup_eqb u v = true -> seen_value v seen = true -> seen_value u seen = true.
Proof.
  unfold seen_value. rewrite !existsb_exists. intros Huv [s [Hs Hvs]].
  exists s. split; auto. eapply dup_eqb_trans; eauto.
Qed.

Lemma drop_duplicates_first (seen : list fv) (l : list srow) (x : srow) :
  In x (drop_duplicates seen l) ->
  seen_value (corr x) seen = false /\
  exists l1 l2, l = l1 ++ x :: l2 /\ forall y, In y l1 -> dup_eqb (corr y) (corr x) = false.
Proof.
  revert seen. induction l as [|r rest IH]; intros seen Hin; simpl in Hin; [contradiction|].
  destruct (seen_value (corr r) seen) eqn:Hr.
  - destruct (IH seen Hin) as [Hx [l1 [l2 [Hl H]]]]. split; auto.
    exists (r :: l1), l2. split; [simpl; congruence|].
    intros y [Hy | Hy]; [subst y | auto].
    destruct (dup_eqb (corr r) (corr x)) eqn:E; auto.
    rewrite dup_eqb_sym in E. rewrite (seen_value_trans _ _ _ E Hr) in Hx. discriminate.
  - destruct Hin as [Hx | Hin].
    + subst x. split; auto. exists [], rest. split; [reflexivity | intros y []].
    + destruct (IH (corr r :: seen) Hin) as [Hx [l1 [l2 [Hl H]]]].
      simpl in Hx. apply orb_false_iff in Hx as [Hxr Hx]. split; auto.
      exists (r :: l1), l2. split; [simpl; congruence|].
      intros y [Hy | Hy]; [subst y; rewrite dup_eqb_sym; exact Hxr | auto].
Qed.

(** *** [stack] is in row-major order *)

Definition lex (cols : list string) (r s : srow) : Prop :=
  (index_of (var1 r) cols < index_of (var1 s) cols)%nat \/
  (index_of (var1 r) cols = index_of (var1 s) cols /\
   (index_of (var2 r) cols < index_of (var2 s) cols)%nat).

Lemma SS_app {A} (R : A -> A -> Prop) (l1 l2 : list A) :
  StronglySorted R l1 -> StronglySorted R l2 ->
  (forall x y, In x l1 -> In y l2 -> R x y) -> StronglySorted R (l1 ++ l2).
Proof.
  induction l1 as [|a l1 IH]; simpl; auto. intros H1 H2 H.
  apply StronglySorted_inv in H1 as [Hs Hf]. constructor.
  - apply IH; auto.
  - apply Forall_app. split; auto. apply Forall_forall. intros y Hy. apply H; auto.
Qed.

Lemma SS_map {A B} (R : A -> A -> Prop) (R' : B -> B -> Prop) (f : A -> B) (l : list A) :
  (forall a b, R a b -> R' (f a) (f b)) -> StronglySorted R l -> StronglySorted R' (map f l).
Proof.
  intros Hf. induction 1 as [|a l Hs IH Hall]; simpl; constructor; auto.
  apply Forall_map. eapply Forall_impl; [|exact Hall]. auto.
Qed.

Lemma SS_filter {A} (R : A -> A -> Prop) (f : A -> bool) (l : list A) :
  StronglySorted R l -> StronglySorted R (filter f l).
Proof.
  induction 1 as [|a l Hs IH Hall]; simpl; [constructor|].
  destruct (f a); auto. constructor; auto.
  apply Forall_forall. intros y Hy. apply filter_In in Hy as [Hy _].
  rewrite Forall_forall in Hall. auto.
Qed.

Lemma SS_split {A} (R : A -> A -> Prop) (l1 l2 : list A) (x y : A) :
  StronglySorted R (l1 ++ x :: l2) -> In y l2 -> R x y.
Proof.
  induction l1 as [|a l1 IH]; simpl; intros H Hy.
  - apply StronglySorted_inv in H as [_ Hf]. rewrite Forall_forall in Hf. auto.
  - apply StronglySorted_inv in H as [H _]. auto.
Qed.

Lemma index_of_app (a : string) (pre suf : list string) :
  ~ In a pre -> index_of a (pre ++ suf) = (List.length pre + index_of a suf)%nat.
Proof.
  induction pre as [|b pre IH]; simpl; auto. intros Hn.
  destruct (String.eqb_spec a b); [exfalso; auto | rewrite IH; auto].
Qed.

Lemma NoDup_app_disj {A} (l1 l2 : list A) (a : A) :
  NoDup (l1 ++ l2) -> In a l1 -> In a l2 -> False.
Proof.
  induction l1 as [|b l1 IH]; simpl; [tauto|]. intros Hnd [Hb | Ha] H2.
  - subst b. apply NoDup_cons_iff in Hnd as [Hn _]. apply Hn, in_or_app; auto.
  - apply NoDup_cons_iff in Hnd as [_ Hnd]. eauto.
Qed.

Lemma index_of_sorted_suffix (pre suf : list string) :
  NoDup (pre ++ suf) ->
  StronglySorted (fun a b => (index_of a (pre ++ suf) < index_of b (pre ++ suf))%nat) suf.
Proof.
  revert pre. induction suf as [|b suf IH]; intros pre Hnd; [constructor|].
  constructor.
  - replace (pre ++ b :: suf) with ((pre ++ [b]) ++ suf) by (rewrite <- app_assoc; reflexivity).
    apply IH. rewrite <- app_assoc. exact Hnd.
  - apply Forall_forall. intros c Hc.
    apply NoDup_remove in Hnd as [Hnd Hb].
    assert (Hbpre : ~ In b pre) by (intro; apply Hb; apply in_or_app; auto).
    assert (Hcb : c <> b) by (intro; subst; apply Hb; apply in_or_app; auto).
    assert (Hcpre : ~ In c pre).
    { intro Hcp. exact (NoDup_app_disj _ _ _ Hnd Hcp Hc). }
    rewrite !index_of_app by assumption. simpl.
    rewrite String.eqb_refl. destruct (String.eqb_spec c b); [contradiction|]. lia.
Qed.


Lemma rows_sorted (cols outer : list string) (M : string -> string -> fv) :
  StronglySorted (fun a b => (index_of a cols < index_of b cols)%nat) cols ->
  StronglySorted (fun a b => (index_of a cols < index_of b cols)%nat) outer ->
  StronglySorted (lex cols) (flat_map (fun a => map (fun b => mk_srow a b (M a b)) cols) outer).
Proof.
  intros Hcols. induction outer as [|a outer IH]; intros Hout; simpl; [constructor|].
  apply StronglySorted_inv in Hout as [Hout Ha].
  apply SS_app; auto.
  - eapply SS_map; [|exact Hcols]. intros b c Hbc. right. simpl. auto.
  - intros x y Hx Hy. apply in_map_iff in Hx as [b [Hx _]]. subst x.
    apply in_flat_map in Hy as [a' [Ha' Hy]]. apply in_map_iff in Hy as [c [Hy _]]. subst y.
    left. simpl. rewrite Forall_forall in Ha. auto.
Qed.

Lemma stack_sorted (cols : list string) (M : string -> string -> fv) :
  NoDup cols -> StronglySorted (lex cols) (stack cols M).
Proof.
  intros Hnd. unfold stack. apply SS_filter.
  pose proof (index_of_sorted_suffix [] cols Hnd) as Hcols. simpl in Hcols.
  apply rows_sorted; assumption.
Qed.

Lemma in_stack (cols : list string) (M : string -> string -> fv) (x : srow) :
  In x (stack cols M) <->
  exists a b, In a cols /\ In b cols /\ x = mk_srow a b (M a b) /\ is_nan (M a b) = false.
Proof.
  unfold stack. rewrite filter_In, in_flat_map. split.
  - intros [[a [Ha Hx]] Hn]. apply in_map_iff in Hx as [b [Hx Hb]]. subst x.
    exists a, b. simpl in Hn. apply negb_true_iff in Hn. auto.
  - intros [a [b [Ha [Hb [Hx Hn]]]]]. subst x. split.
    + exists a. split; auto. apply in_map_iff. eauto.
    + simpl. rewrite Hn. reflexivity.
Qed.

(** C4: for a symmetric matrix over distinct column labels, every retained
    pair [(a, b)] has [a] before [b] in the column order, so no unordered
    pair is returned in both orientations. *)
Theorem C4_canonical_orientation (thr : Q) (cols : list string) (M : string -> string -> fv) :
  NoDup cols -> (forall a b, M a b = M b a) ->
  (forall r, In r (high_correlations_at thr cols M) ->
     (index_of (var1 r) cols < index_of (var2 r) cols)%nat) /\
  (forall r r', In r (high_correlations_at thr cols M) -> In r' (high_correlations_at thr cols M) ->
     ~ (var1 r = var2 r' /\ var2 r = var1 r')).
Proof.
  intros Hnd Hsym.
  assert (Hor : forall r, In r (high_correlations_at thr cols M) ->
     (index_of (var1 r) cols < index_of (var2 r) cols)%nat).
  { intros x Hx. unfold high_correlations_at in Hx.
    destruct (drop_duplicates_first _ _ _ Hx) as [_ [l1 [l2 [Hl Hfirst]]]].
    assert (Hxl : In x (filter (keep_row thr) (stack cols M))) by (rewrite Hl; apply in_elt).
    apply filter_In in Hxl as [Hxs Hkeep].
    apply in_stack in Hxs as [a [b [Ha [Hb [Hx' Hn]]]]]. subst x.
    unfold keep_row in Hkeep. simpl in Hkeep. apply andb_true_iff in Hkeep as [Hab Hgt].
    apply negb_true_iff in Hab. apply String.eqb_neq in Hab.
    assert (Hyl : In (mk_srow b a (M a b)) (filter (keep_row thr) (stack cols M))).
    { apply filter_In. split.
      - apply in_stack. exists b, a. rewrite (Hsym b a). repeat split; auto.
      - unfold keep_row. simpl. rewrite Hgt.
        destruct (String.eqb_spec b a); [congruence | reflexivity]. }
    rewrite Hl in Hyl. apply in_app_or in Hyl as [Hy1 | [Hyx | Hy2]].
    - exfalso. specialize (Hfirst _ Hy1). simpl in Hfirst.
      rewrite dup_eqb_refl in Hfirst. discriminate.
    - exfalso. inversion Hyx. congruence.
    - assert (Hss : StronglySorted (lex cols) (l1 ++ mk_srow a b (M a b) :: l2)).
      { rewrite <- Hl. apply SS_filter, stack_sorted; assumption. }
      pose proof (SS_split _ _ _ _ _ Hss Hy2) as Hlex.
      unfold lex in Hlex. simpl in Hlex. simpl. lia. }
  split; auto.
  intros r r' Hr Hr' [H1 H2]. pose proof (Hor r Hr). pose proof (Hor r' Hr').
  rewrite H1, H2 in *. lia.
Qed.

Lemma abc_matrix_sym (a b : string) : abc_matrix a b = abc_matrix b a.
Proof.
  unfold abc_matrix. rewrite (String.eqb_sym b a).
  destruct (String.eqb a b); auto.
  destruct (String.eqb a "B"%string), (String.eqb b "C"%string),
    (String.eqb a "C"%string), (String.eqb b "B"%string); reflexivity.
Qed.

Lemma C4_canonical_orientation_witness :
  NoDup ["A"; "B"; "C"]%string /\
  (forall r, In r (high_correlations_at (1 # 2) ["A"; "B"; "C"]%string abc_matrix) ->
     (index_of (var1 r) ["A"; "B"; "C"]%string < index_of (var2 r) ["A"; "B"; "C"]%string)%nat).
Proof.
  assert (Hnd : NoDup ["A"; "B"; "C"]%string).
  { repeat constructor; simpl; intuition discriminate. }
  split; [exact Hnd|].
  apply (C4_canonical_orientation (1 # 2) ["A"; "B"; "C"]%string abc_matrix Hnd abc_matrix_sym).
Defined.

(** *** Sorting *)

Definition ge_row (r s : srow) : Prop := key_ge (corr r) (corr s) = true.

Lemma key_ge_total (a b : fv) : key_ge a b = false -> key_ge b a = true.
Proof.
  destruct a, b; simpl; try discriminate; auto.
  intros H. apply Qle_bool_iff. apply Qlt_le_weak. apply Qnot_le_lt.
  intros H'. apply Qle_bool_iff in H'. congruence.
Qed.

Lemma insert_desc_perm (r : srow) (l : list srow) : Permutation (insert_desc r l) (r :: l).
Proof.
  induction l as [|s l IH]; simpl; auto.
  destruct (key_ge (corr r) (corr s)); auto.
  rewrite IH. apply perm_swap.
Qed.

Lemma insert_desc_hd (a r : srow) (l : list srow) :
  HdRel ge_row a l -> ge_row a r -> HdRel ge_row a (insert_desc r l).
Proof.
  destruct l as [|s l]; simpl; intros H Har; [constructor; auto|].
  destruct (key_ge (corr r) (corr s)); constructor; auto. inversion H; auto.
Qed.

Lemma insert_desc_sorted (r : srow) (l : list srow) :
  Sorted ge_row l -> Sorted ge_row (insert_desc r l).
Proof.
  induction 1 as [|s l Hs IH Hhd]; simpl; [constructor; auto|].
  destruct (key_ge (corr r) (corr s)) eqn:E.
  - constructor; [constructor; auto | constructor; exact E].
  - constructor; auto. apply insert_desc_hd; auto. apply key_ge_total; exact E.
Qed.

(** C10: the table shown under "Correlation Details" is the extractor's
    result reordered by descending coefficient. *)
Theorem C10_details_sorted_desc (cols : list string) (M : string -> string -> fv) :
  Sorted ge_row (correlation_details cols M) /\
  Permutation (correlation_details cols M) (high_correlations cols M).
Proof.
  unfold correlation_details. generalize (high_correlations cols M) as l.
  induction l as [|r l [IHs IHp]]; simpl; [split; constructor|]. split.
  - apply insert_desc_sorted; auto.
  - rewrite insert_desc_perm. auto.
Qed.

End HighCorrFacts.

(** ** [pearsonr] *)
Module PearsonFacts.
Import Pearson B64Facts.

(** *** Non-finite values propagate through the centring *)

Lemma fv_add_finite (a b : fv) :
  isfinite (fv_add a b) = true -> isfinite a = true /\ isfinite b = true.
Proof. destruct a, b; simpl; intros H; try discriminate; split; reflexivity. Qed.

Lemma fv_sub_nonfinite_l (a b : fv) : isfinite a = false -> isfinite (fv_sub a b) = false.
Proof. destruct a, b; simpl; auto; discriminate. Qed.

Lemma centred_nonfinite (x : list fv) (v : fv) :
  In v x -> isfinite v = false -> forallb isfinite (centred x) = false.
Proof.
  intros Hin Hv. unfold centred. cbv zeta. apply not_true_iff_false. intros H.
  rewrite forallb_forall in H.
  specialize (H _ (in_map (fun w => fv_sub w (np_mean x)) x v Hin)). cbv beta in H.
  rewrite fv_sub_nonfinite_l in H; auto. discriminate.
Qed.

Lemma filter_length_lt {A} (f : A -> bool) (l : list A) :
  (List.length (filter f l) < List.length l)%nat -> exists a, In a l /\ f a = false.
Proof.
  induction l as [|a l IH]; simpl; [lia|]. destruct (f a) eqn:E; simpl; intros H.
  - destruct IH as [b [Hb Hf]]; [lia|]. eauto.
  - eauto.
Qed.

Lemma masked_row_nonfinite (x y : list fv) :
  List.length x = List.length y -> (valid_pair_count x y < List.length x)%nat ->
  (exists v, In v x /\ isfinite v = false) \/ (exists v, In v y /\ isfinite v = false).
Proof.
  intros Hlen Hlt. unfold valid_pair_count, valid_rows in Hlt.
  rewrite <- (Nat.min_id (List.length x)) in Hlt. rewrite Hlen in Hlt at 2.
  rewrite <- length_combine in Hlt.
  destruct (filter_length_lt _ _ Hlt) as [[a b] [Hab Hf]].
  simpl in Hf. apply andb_false_iff in Hf as [Ha | Hb].
  - left. exists a. split; auto. eapply in_combine_l; eauto.
  - right. exists b. split; auto. eapply in_combine_r; eauto.
Qed.

(** With three rows or more, a NaN or an infinity anywhere makes
    [scipy.linalg.norm] raise, unless an input is constant. *)
Lemma pearsonr_nonfinite (K : kernels) (x y : list fv) :
  List.length x = List.length y -> (3 <= List.length x)%nat ->
  (exists v, In v x /\ isfinite v = false) \/ (exists v, In v y /\ isfinite v = false) ->
  pearsonr K x y = if constant x || constant y then Result NaN NaN else ValueError nonfinite_msg.
Proof.
  intros Hlen H3 Hnf. unfold pearsonr. cbv zeta. rewrite <- Hlen, Nat.eqb_refl. simpl negb. cbv iota.
  destruct (Nat.ltb_spec (List.length x) 2); [lia|].
  destruct (constant x || constant y); auto.
  destruct (Nat.eqb_spec (List.length x) 2); [lia|].
  destruct Hnf as [[v [Hv Hf]] | [v [Hv Hf]]].
  - rewrite (centred_nonfinite x v Hv Hf). reflexivity.
  - rewrite (centred_nonfinite y v Hv Hf).
    destruct (forallb isfinite (centred x)); reflexivity.
Qed.

(** C2 (counterexample): on the scenario [x = [1, 2, inf, 4]],
    [y = [10, 20, 30, nan]] the call does not restrict itself to the two
    valid rows: it raises, whereas on those two rows alone it returns the
    coefficient 1. *)
Lemma C2_scenario_not_masked :
  pearsonr netlib_kernels [Fin 1; Fin 2; PInf; Fin 4] [Fin 10; Fin 20; Fin 30; NaN] =
    ValueError nonfinite_msg /\
  valid_rows [Fin 1; Fin 2; PInf; Fin 4] [Fin 10; Fin 20; Fin 30; NaN] =
    [(Fin 1, Fin 10); (Fin 2, Fin 20)] /\
  pearsonr netlib_kernels [Fin 1; Fin 2] [Fin 10; Fin 20] = Result (Fin 1) (Fin 1).
Proof. vm_compute. repeat split; reflexivity. Qed.

(** C2 (amended): no validity mask is applied and no [valid_pair_count] is
    reported; on columns of three rows or more in which some row would be
    masked (NaN or infinite value), [pearsonr] raises [ValueError] unless an
    input is constant, in which case it returns NaN for both results. *)
Theorem C2_unmasked_nonfinite (K : kernels) (x y : list fv) :
  List.length x = List.length y -> (3 <= List.length x)%nat ->
  (valid_pair_count x y < List.length x)%nat ->
  pearsonr K x y = if constant x || constant y then Result NaN NaN else ValueError nonfinite_msg.
Proof.
  intros Hlen H3 Hlt. apply pearsonr_nonfinite; auto.
  apply masked_row_nonfinite; auto.
Qed.

Lemma C2_unmasked_nonfinite_witness :
  pearsonr netlib_kernels [Fin 1; Fin 2; PInf; Fin 4] [Fin 10; Fin 20; Fin 30; NaN] =
    ValueError nonfinite_msg.
Proof.
  apply (C2_unmasked_nonfinite netlib_kernels [Fin 1; Fin 2; PInf; Fin 4] [Fin 10; Fin 20; Fin 30; NaN]);
    vm_compute; [reflexivity | lia | lia].
Defined.

(** *** Inputs of exactly two rows *)

Lemma sign_nonzero (q : Q) : ~ (q == 0)%Q ->
  fv_sign (Fin q) = Fin 1 \/ fv_sign (Fin q) = Fin (-1).
Proof.
  intros H. simpl. destruct (Qeq_bool q 0) eqn:E; [apply Qeq_bool_iff in E; contradiction|].
  destruct (Qle_bool q 0); auto.
Qed.

Lemma Qeq_bool_refl (q : Q) : Qeq_bool q q = true.
Proof. apply Qeq_bool_iff. reflexivity. Qed.

(** [np.sign(x[1] - x[0])] for two doubles that are not equal. *)
Lemma two_row_sign (x0 x1 : fv) :
  fv_double x0 = true -> fv_double x1 = true -> constant [x0; x1] = false ->
  fv_sign (fv_sub x1 x0) = Fin 1 \/ fv_sign (fv_sub x1 x0) = Fin (-1) \/
  (fv_sign (fv_sub x1 x0) = NaN /\ (isfinite x0 = false \/ isfinite x1 = false)).
Proof.
  intros H0 H1 Hc.
  destruct x0 as [a| | |], x1 as [b| | |]; cbn [constant forallb fv_eqb] in Hc;
    try (rewrite ?Qeq_bool_refl in Hc; discriminate).
  1: { rewrite Qeq_bool_refl in Hc. cbn [andb] in Hc.
       assert (Hab : ~ (a == b)%Q).
       { intros E. apply Qeq_sym in E. apply Qeq_bool_iff in E. rewrite E in Hc. discriminate. }
       simpl in H0, H1. rewrite (sub_double_sign a b H0 H1 Hab).
       assert (Hd : ~ (b - a == 0)%Q).
       { intros E. apply Hab. setoid_replace b with ((b - a) + a)%Q by ring. rewrite E. ring. }
       destruct (sign_nonzero _ Hd); auto. }
  all: simpl; auto 6.
Qed.

Definition unit_sign (s : fv) : Prop := s = Fin 1 \/ s = Fin (-1).

Lemma mul_unit_sign (s t : fv) : unit_sign s -> unit_sign t -> unit_sign (fv_mul s t).
Proof. unfold unit_sign. intros [-> | ->] [-> | ->]; vm_compute; auto. Qed.

Lemma fv_mul_nan_l (t : fv) : fv_mul NaN t = NaN.
Proof. destruct t; reflexivity. Qed.

Lemma fv_mul_nan_r (s : fv) : fv_mul s NaN = NaN.
Proof. destruct s; reflexivity. Qed.

(** Two rows, neither sample constant: [p = 1] and a coefficient of
    [1], [-1], or NaN when a value is not finite. *)
Lemma pearsonr_two_rows (K : kernels) (x0 x1 y0 y1 : fv) :
  forallb fv_double [x0; x1] = true -> forallb fv_double [y0; y1] = true ->
  constant [x0; x1] || constant [y0; y1] = false ->
  exists r, pearsonr K [x0; x1] [y0; y1] = Result r (Fin 1) /\
    (unit_sign r \/ (r = NaN /\ forallb isfinite [x0; x1; y0; y1] = false)).
Proof.
  intros Hx Hy Hc. apply orb_false_iff in Hc as [Hcx Hcy].
  cbn [forallb] in Hx, Hy. rewrite andb_true_r in Hx, Hy.
  apply andb_true_iff in Hx as [Hx0 Hx1]. apply andb_true_iff in Hy as [Hy0 Hy1].
  unfold pearsonr. cbv zeta. cbn [List.length Nat.eqb negb Nat.ltb Nat.leb nth].
  rewrite Hcx, Hcy. cbn [orb]. eexists. split; [reflexivity|].
  destruct (two_row_sign x0 x1 Hx0 Hx1 Hcx) as [Sx | [Sx | [Sx Fx]]];
  destruct (two_row_sign y0 y1 Hy0 Hy1 Hcy) as [Sy | [Sy | [Sy Fy]]];
  rewrite ?Sx, ?Sy.
  all: try (left; apply mul_unit_sign; unfold unit_sign; auto; fail).
  all: right; split; [rewrite ?fv_mul_nan_l, ?fv_mul_nan_r; reflexivity|]; cbn [forallb].
  all: try (destruct Fx as [F | F]; rewrite F; rewrite ?andb_false_l, ?andb_false_r; reflexivity).
  all: destruct Fy as [F | F]; rewrite F; rewrite ?andb_false_l, ?andb_false_r; reflexivity.
Qed.

(** C3 (counterexample): with a single row (so fewer than two valid rows)
    [pearsonr] raises instead of returning [coefficient = 0],
    [p_value = 1]. *)
Lemma C3_single_row_raises :
  valid_pair_count [Fin 1] [Fin 2] = 1%nat /\
  pearsonr netlib_kernels [Fin 1] [Fin 2] = ValueError "x and y must have length at least 2."%string.
Proof. split; reflexivity. Qed.

(** C3 (amended): on doubles with fewer than two valid rows, [pearsonr]
    never returns the neutral result [coefficient = 0], [p_value = 1]:
    inputs of fewer than two rows raise [ValueError]; inputs of three rows
    or more raise [ValueError], or return NaN for both results when an
    input is constant; inputs of exactly two rows return NaN for both
    results when an input is constant, and otherwise [p_value = 1] with a
    coefficient of NaN, [1] or [-1]. *)
Theorem C3_few_valid_rows (K : kernels) (x y : list fv) :
  List.length x = List.length y ->
  forallb fv_double x = true -> forallb fv_double y = true ->
  (valid_pair_count x y < 2)%nat ->
  (forall r p, pearsonr K x y = Result r p -> ~ (fv_eqb r (Fin 0) = true /\ fv_eqb p (Fin 1) = true)) /\
  ((List.length x < 2)%nat -> exists msg, pearsonr K x y = ValueError msg) /\
  ((3 <= List.length x)%nat ->
     pearsonr K x y = if constant x || constant y then Result NaN NaN else ValueError nonfinite_msg) /\
  (List.length x = 2%nat -> constant x || constant y = true -> pearsonr K x y = Result NaN NaN) /\
  (List.length x = 2%nat -> constant x || constant y = false ->
     exists r, pearsonr K x y = Result r (Fin 1) /\ (r = NaN \/ r = Fin 1 \/ r = Fin (-1))).
Proof.
  intros Hlen Hdx Hdy Hv.
  assert (P2 : (List.length x < 2)%nat -> exists msg, pearsonr K x y = ValueError msg).
  { intros H2. unfold pearsonr. cbv zeta. rewrite <- Hlen, Nat.eqb_refl. simpl negb. cbv iota.
    destruct (Nat.ltb_spec (List.length x) 2); [eauto | lia]. }
  assert (P3 : (3 <= List.length x)%nat ->
     pearsonr K x y = if constant x || constant y then Result NaN NaN else ValueError nonfinite_msg).
  { intros H3. apply pearsonr_nonfinite; auto. apply masked_row_nonfinite; auto. lia. }
  assert (P4 : List.length x = 2%nat -> constant x || constant y = true -> pearsonr K x y = Result NaN NaN).
  { intros H2 Hc. unfold pearsonr. cbv zeta. rewrite <- Hlen, Nat.eqb_refl, H2, Hc. reflexivity. }
  assert (P5 : List.length x = 2%nat -> constant x || constant y = false ->
     exists r, pearsonr K x y = Result r (Fin 1) /\ (r = NaN \/ r = Fin 1 \/ r = Fin (-1))).
  { intros H2 Hc.
    destruct x as [|x0 [|x1 [|]]]; try discriminate.
    destruct y as [|y0 [|y1 [|]]]; try discriminate.
    destruct (pearsonr_two_rows K x0 x1 y0 y1 Hdx Hdy Hc) as [r [E Hr]].
    exists r. split; [exact E|]. destruct Hr as [[-> | ->] | [-> _]]; auto. }
  split; [|tauto]. intros r p E [Hr _].
  destruct (Nat.lt_ge_cases (List.length x) 2) as [L|L];
    [destruct (P2 L) as [m Em]; congruence|].
  destruct (Nat.eq_dec (List.length x) 2) as [L2|L2].
  - destruct (constant x || constant y) eqn:C.
    + rewrite (P4 L2 eq_refl) in E. inversion E; subst. discriminate.
    + destruct (P5 L2 eq_refl) as [r' [E' Hr']]. rewrite E' in E. inversion E; subst.
      destruct Hr' as [-> | [-> | ->]]; vm_compute in Hr; discriminate.
  - rewrite (P3 ltac:(lia)) in E. destruct (constant x || constant y).
    + inversion E; subst. discriminate.
    + discriminate.
Qed.

Lemma C3_few_valid_rows_witness :
  exists r, pearsonr netlib_kernels [Fin 1; PInf] [Fin 1; Fin 2] = Result r (Fin 1) /\
    (r = NaN \/ r = Fin 1 \/ r = Fin (-1)).
Proof.
  destruct (C3_few_valid_rows netlib_kernels [Fin 1; PInf] [Fin 1; Fin 2]
              eq_refl eq_refl eq_refl ltac:(vm_compute; lia)) as [_ [_ [_ [_ H]]]].
  exact (H eq_refl eq_refl).
Defined.

(** *** Range of the coefficient *)







End PearsonFacts.

(** ** [DataFrame.corr] *)
Module CorrMatrixFacts.
Import CorrMatrix B64Facts.

(** *** Exact steps of the IEEE operations *)

Lemma fv_sub_zero_r (a : Q) : is_double a = true -> fv_sub (Fin a) (Fin 0) = Fin a.
Proof.
  intros H. unfold fv_sub, fv_neg, fv_add. change (a + - 0)%Q with (a + 0)%Q.
  rewrite Qplus_0_r_syn. apply is_double_iff, H.
Qed.

Lemma fv_sub_self (a : Q) : fv_sub (Fin a) (Fin a) = Fin 0.
Proof. unfold fv_sub, fv_neg, fv_add. apply round64_num0, Qplus_opp_num. Qed.

Lemma fv_mul_zero_l (a : Q) : fv_mul (Fin 0) (Fin a) = Fin 0.
Proof. unfold fv_mul. apply round64_num0. reflexivity. Qed.

Lemma fv_mul_zero_r (a : Q) : fv_mul (Fin a) (Fin 0) = Fin 0.
Proof. unfold fv_mul. apply round64_num0, Qmult_0_r_num. Qed.

Lemma fv_mul_one_l (a : Q) : is_double a = true -> fv_mul (Fin 1) (Fin a) = Fin a.
Proof. intros H. unfold fv_mul. rewrite Qmult_1_l_syn. apply is_double_iff, H. Qed.

Lemma fv_add_zero_l (a : Q) : is_double a = true -> fv_add (Fin 0) (Fin a) = Fin a.
Proof. intros H. unfold fv_add. rewrite Qplus_0_l_syn. apply is_double_iff, H. Qed.

Lemma fv_add_zero_r (a : Q) : is_double a = true -> fv_add (Fin a) (Fin 0) = Fin a.
Proof. intros H. unfold fv_add. rewrite Qplus_0_r_syn. apply is_double_iff, H. Qed.

Lemma inv_one : fv_div (Fin 1) (fv_of_nat 1) = Fin 1.
Proof. reflexivity. Qed.

Lemma inv_finite (n : nat) : exists w, fv_div (Fin 1) (fv_of_nat (S n)) = Fin w.
Proof.
  unfold fv_div, fv_of_nat. simpl Z.of_nat. set (p := Pos.of_succ_nat n).
  change (Qeq_bool (inject_Z (Zpos p)) 0) with false. cbv iota.
  apply round64_small. simpl.
  assert (Ho : (1 < ovf)%Z) by reflexivity. lia.
Qed.

(** *** The Welford state of a column against itself *)

Definition wstate (k : nat) (a b : Q) : welford := {|
  nobs := S k; meanx := Fin a; meany := Fin b; ssqdmx := Fin 0; ssqdmy := Fin 0; covxy := Fin 0 |}.

(** The first observation is stored exactly. *)
Lemma step0 (a b : Q) : is_double a = true -> is_double b = true ->
  welford_step welford0 (Fin a) (Fin b) = wstate 0 a b.
Proof.
  intros Ha Hb. unfold welford_step, welford0, wstate. cbn [nobs meanx meany ssqdmx ssqdmy covxy].
  rewrite (fv_sub_zero_r a Ha), (fv_sub_zero_r b Hb), inv_one, (fv_mul_one_l a Ha), (fv_mul_one_l b Hb),
    (fv_add_zero_l a Ha), (fv_add_zero_l b Hb), !fv_sub_self, !fv_mul_zero_l.
  reflexivity.
Qed.

(** A further observation equal to the mean leaves the state unchanged. *)
Lemma step_const (k : nat) (c : Q) : is_double c = true ->
  welford_step (wstate k c c) (Fin c) (Fin c) = wstate (S k) c c.
Proof.
  intros Hc. unfold welford_step, wstate. cbn [nobs meanx meany ssqdmx ssqdmy covxy].
  destruct (inv_finite (S k)) as [w Hw].
  rewrite !fv_sub_self, Hw, !fv_mul_zero_r, (fv_add_zero_r c Hc), !fv_sub_self, !fv_mul_zero_l.
  reflexivity.
Qed.

Definition diag_inv (c : Q) (s : welford) : Prop := s = welford0 \/ exists k, s = wstate k c c.

Lemma diag_fold (c : Q) (l : list fv) (s : welford) :
  is_double c = true -> (forall v, In v l -> isfinite v = true -> v = Fin c) ->
  diag_inv c s -> diag_inv c (fold_left accumulate (combine l l) s).
Proof.
  intros Hc. revert s. induction l as [|v l IH]; intros s Hl Hs; simpl; auto.
  apply IH; [intros w Hw; apply Hl; simpl; auto|].
  unfold accumulate. cbn [fst snd]. destruct (isfinite v) eqn:F; cbn [andb]; [|exact Hs].
  rewrite (Hl v (or_introl eq_refl) F).
  destruct Hs as [-> | [k ->]]; right.
  - exists O. apply step0; auto.
  - exists (S k). apply step_const; auto.
Qed.

Lemma nancorr_diag_nan (col : list fv) (c : Q) :
  is_double c = true -> (forall v, In v col -> isfinite v = true -> v = Fin c) ->
  nancorr_pair col col = NaN.
Proof.
  intros Hc Hl. unfold nancorr_pair. cbv zeta.
  destruct (diag_fold c col welford0 Hc Hl (or_introl eq_refl)) as [E | [k E]]; rewrite E.
  - reflexivity.
  - unfold wstate. cbn [nobs ssqdmx ssqdmy]. reflexivity.
Qed.

Lemma corr_matrix_sym (cols : list (list fv)) (i j : nat) :
  corr_matrix cols i j = corr_matrix cols j i.
Proof.
  unfold corr_matrix.
  destruct (Nat.leb_spec j i), (Nat.leb_spec i j); auto.
  - replace j with i by lia. reflexivity.
  - lia.
Qed.

(** C5 (counterexample): the diagonal is not always [1.0]: a column whose
    finite values are all equal gives NaN, and in float64 the product
    [ssqdmx * ssqdmy] overflows for [[1e80, -1e80, 0]] (entry [0.0]) and
    underflows to a zero divisor for [[1e-90, -1e-90, 0]] (entry NaN). *)
Lemma C5_diagonal_not_one :
  corr_matrix [[Fin 3; Fin 3; NaN]] 0 0 = NaN /\
  corr_matrix [[f64 (inject_Z (10 ^ 80)); f64 (inject_Z (- 10 ^ 80)); Fin 0]] 0 0 = Fin 0 /\
  corr_matrix [[f64 (Qmake 1 (10 ^ 90)); f64 (Qmake (-1) (10 ^ 90)); Fin 0]] 0 0 = NaN.
Proof. vm_compute. repeat split; reflexivity. Qed.

(** C5 (amended): the correlation matrix is exactly symmetric (the same
    computed value is written to [M[i][j]] and [M[j][i]]); a diagonal entry
    is NaN when the column's finite values are all equal or there are
    none. *)
Theorem C5_symmetric_and_diagonal (cols : list (list fv)) :
  (forall i j, corr_matrix cols i j = corr_matrix cols j i) /\
  (forall i c, is_double c = true ->
     (forall v, In v (nth i cols []) -> isfinite v = true -> v = Fin c) ->
     corr_matrix cols i i = NaN).
Proof.
  split; [apply corr_matrix_sym|].
  intros i c Hc Hl. unfold corr_matrix. rewrite Nat.leb_refl.
  apply (nancorr_diag_nan _ c Hc Hl).
Qed.

Lemma C5_symmetric_and_diagonal_witness :
  corr_matrix [[Fin 2; NaN; Fin 2]] 0 0 = NaN.
Proof.
  apply (proj2 (C5_symmetric_and_diagonal [[Fin 2; NaN; Fin 2]]) 0%nat 2); [reflexivity|].
  intros v Hv Hf. simpl in Hv. destruct Hv as [<- | [<- | [<- | []]]]; [reflexivity | discriminate | reflexivity].
Defined.

End CorrMatrixFacts.

(** * Further properties of the script *)

Module RangeFilterExtra.
Import RangeFilter Slider.

Lemma filter_twice {A} (f g : A -> bool) (l : list A) :
  filter g (filter f l) = filter (fun a => f a && g a) l.
Proof.
  induction l as [|a l IH]; simpl; auto.
  destruct (f a); simpl; [destruct (g a); simpl; congruence | exact IH].
Qed.

Lemma in_range_meet (lo hi lo' hi' q : Q) :
  (Qle_bool lo q && Qle_bool q hi) && (Qle_bool lo' q && Qle_bool q hi') =
  Qle_bool (Qmax lo lo') q && Qle_bool q (Qmin hi hi').
Proof.
  apply eq_true_iff_eq. rewrite !andb_true_iff, !Qle_bool_iff.
  rewrite Q.max_lub_iff, Q.min_glb_iff. tauto.
Qed.

(** Filtering twice intersects the ranges, and re-applying the same range
    changes nothing. *)
Theorem range_filter_compose (Row : Type) (get : Row -> fv) (df : list Row) (lo hi lo' hi' : Q) :
  filtered_data Row get (filtered_data Row get df lo hi) lo' hi' =
  filtered_data Row get df (Qmax lo lo') (Qmin hi hi') /\
  filtered_data Row get (filtered_data Row get df lo hi) lo hi = filtered_data Row get df lo hi.
Proof.
  unfold filtered_data. split; rewrite filter_twice.
  - apply filter_ext. intros r. destruct (get r) as [q| | |]; simpl; auto.
    apply in_range_meet.
  - apply filter_ext. intros r. apply andb_diag.
Qed.

(** *** The default slider position *)

Definition fin_or_nan (v : fv) : Prop := v = NaN \/ isfinite v = true.

Lemma series_min_bound (l : list fv) (acc : option fv) (lo : Q) :
  Forall fin_or_nan l -> (acc = None \/ exists a, acc = Some (Fin a)) ->
  fold_left (fun acc v =>
    if isnan v then acc
    else match acc with
         | None => Some v
         | Some m => if fv_ltb v m then Some v else Some m
         end) l acc = Some (Fin lo) ->
  (forall a, acc = Some (Fin a) -> (lo <= a)%Q) /\ (forall q, In (Fin q) l -> (lo <= q)%Q).
Proof.
  revert acc. induction l as [|v l IH]; intros acc Hl Hacc Hres; simpl in Hres.
  - subst acc. split; [intros a Ha; inversion Ha; apply Qle_refl | intros q []].
  - inversion Hl as [|v' l' Hv Hl']; subst.
    destruct Hv as [Hv | Hv]; [subst v|].
    + destruct (IH acc Hl' Hacc Hres) as [H1 H2]. split; auto.
      intros q [Hq | Hq]; [discriminate | auto].
    + destruct v as [q0| | |]; try discriminate. simpl in Hres.
      destruct Hacc as [Hacc | [a Hacc]]; subst acc.
      * destruct (IH (Some (Fin q0)) Hl' ltac:(right; eauto) Hres) as [H1 H2].
        split; [discriminate|]. intros q [Hq | Hq]; [inversion Hq; subst; auto | auto].
      * cbn [fv_ltb] in Hres. destruct (Qle_bool a q0) eqn:E; simpl in Hres.
        -- apply Qle_bool_iff in E.
           destruct (IH (Some (Fin a)) Hl' ltac:(right; eauto) Hres) as [H1 H2].
           assert (Hla : (lo <= a)%Q) by auto.
           split; [intros a' Ha'; inversion Ha'; subst; auto|].
           intros q [Hq | Hq]; [inversion Hq; subst; eapply Qle_trans; eauto | auto].
        -- destruct (IH (Some (Fin q0)) Hl' ltac:(right; eauto) Hres) as [H1 H2].
           assert (Hlq : (lo <= q0)%Q) by auto.
           assert (Hqa : (q0 <= a)%Q).
           { apply Qlt_le_weak, Qnot_le_lt. intros H. apply Qle_bool_iff in H. congruence. }
           split; [intros a' Ha'; inversion Ha'; subst; eapply Qle_trans; eauto|].
           intros q [Hq | Hq]; [inversion Hq; subst; auto | auto].
Qed.

Lemma series_max_bound (l : list fv) (acc : option fv) (hi : Q) :
  Forall fin_or_nan l -> (acc = None \/ exists a, acc = Some (Fin a)) ->
  fold_left (fun acc v =>
    if isnan v then acc
    else match acc with
         | None => Some v
         | Some m => if fv_ltb m v then Some v else Some m
         end) l acc = Some (Fin hi) ->
  (forall a, acc = Some (Fin a) -> (a <= hi)%Q) /\ (forall q, In (Fin q) l -> (q <= hi)%Q).
Proof.
  revert acc. induction l as [|v l IH]; intros acc Hl Hacc Hres; simpl in Hres.
  - subst acc. split; [intros a Ha; inversion Ha; apply Qle_refl | intros q []].
  - inversion Hl as [|v' l' Hv Hl']; subst.
    destruct Hv as [Hv | Hv]; [subst v|].
    + destruct (IH acc Hl' Hacc Hres) as [H1 H2]. split; auto.
      intros q [Hq | Hq]; [discriminate | auto].
    + destruct v as [q0| | |]; try discriminate. simpl in Hres.
      destruct Hacc as [Hacc | [a Hacc]]; subst acc.
      * destruct (IH (Some (Fin q0)) Hl' ltac:(right; eauto) Hres) as [H1 H2].
        split; [discriminate|]. intros q [Hq | Hq]; [inversion Hq; subst; auto | auto].
      * cbn [fv_ltb] in Hres. destruct (Qle_bool q0 a) eqn:E; simpl in Hres.
        -- apply Qle_bool_iff in E.
           destruct (IH (Some (Fin a)) Hl' ltac:(right; eauto) Hres) as [H1 H2].
           assert (Hla : (a <= hi)%Q) by auto.
           split; [intros a' Ha'; inversion Ha'; subst; auto|].
           intros q [Hq | Hq]; [inversion Hq; subst; eapply Qle_trans; eauto | auto].
        -- destruct (IH (Some (Fin q0)) Hl' ltac:(right; eauto) Hres) as [H1 H2].
           assert (Hlq : (q0 <= hi)%Q) by auto.
           assert (Hqa : (a <= q0)%Q).
           { apply Qlt_le_weak, Qnot_le_lt. intros H. apply Qle_bool_iff in H. congruence. }
           split; [intros a' Ha'; inversion Ha'; subst; eapply Qle_trans; eauto|].
           intros q [Hq | Hq]; [inversion Hq; subst; auto | auto].
Qed.

(** With the slider at its initial position [(min, max)] of a column without
    infinities, the filter drops exactly the rows where the column is
    missing. *)
Theorem slider_default_drops_only_missing (Row : Type) (get : Row -> fv) (df : list Row) (lo hi : Q) :
  (forall r, In r df -> get r <> PInf /\ get r <> NInf) ->
  series_min (map get df) = Some (Fin lo) -> series_max (map get df) = Some (Fin hi) ->
  filtered_data Row get df lo hi = filter (fun r => negb (isnan (get r))) df.
Proof.
  intros Hinf Hmin Hmax.
  assert (Hl : Forall fin_or_nan (map get df)).
  { apply Forall_forall. intros v Hv. apply in_map_iff in Hv as [r [Hr Hin]]. subst v.
    destruct (Hinf r Hin). unfold fin_or_nan. destruct (get r); simpl; auto; congruence. }
  destruct (series_min_bound _ None lo Hl (or_introl eq_refl) Hmin) as [_ Hlo].
  destruct (series_max_bound _ None hi Hl (or_introl eq_refl) Hmax) as [_ Hhi].
  unfold filtered_data. apply filter_ext_in. intros r Hr.
  destruct (Hinf r Hr) as [H1 H2].
  destruct (get r) as [q| | |] eqn:E; simpl; try congruence.
  assert (Hq : In (Fin q) (map get df)) by (rewrite <- E; apply in_map; auto).
  rewrite (proj2 (Qle_bool_iff lo q) (Hlo q Hq)), (proj2 (Qle_bool_iff q hi) (Hhi q Hq)).
  reflexivity.
Qed.

Lemma slider_default_drops_only_missing_witness :
  filtered_data fv (fun v => v) [Fin 3; NaN; Fin 1; Fin 2] 1 3 = [Fin 3; Fin 1; Fin 2].
Proof.
  rewrite (slider_default_drops_only_missing fv (fun v => v) [Fin 3; NaN; Fin 1; Fin 2] 1 3).
  - reflexivity.
  - intros r Hr. simpl in Hr. intuition (subst; discriminate).
  - reflexivity.
  - reflexivity.
Defined.

End RangeFilterExtra.

Module HighCorrExtra.
Import HighCorr HighCorrFacts.

Lemma drop_duplicates_sub (seen : list fv) (l : list srow) (x : srow) :
  In x (drop_duplicates seen l) -> In x l.
Proof.
  intros H. destruct (drop_duplicates_first seen l x H) as [_ [l1 [l2 [Hl _]]]].
  subst l. apply in_or_app. right. left. reflexivity.
Qed.

Lemma drop_duplicates_complete (seen : list fv) (l : list srow) (x : srow) :
  In x l -> seen_value (corr x) seen = false ->
  exists y, In y (drop_duplicates seen l) /\ dup_eqb (corr y) (corr x) = true.
Proof.
  revert seen. induction l as [|r rest IH]; intros seen Hin Hx; [destruct Hin|].
  simpl. destruct (seen_value (corr r) seen) eqn:Hr.
  - destruct Hin as [Hin | Hin].
    + subst r. congruence.
    + exact (IH seen Hin Hx).
  - destruct Hin as [Hin | Hin].
    + subst r. exists x. split; [left; reflexivity | apply dup_eqb_refl].
    + destruct (dup_eqb (corr x) (corr r)) eqn:E.
      * exists r. split; [left; reflexivity|]. rewrite dup_eqb_sym. exact E.
      * destruct (IH (corr r :: seen) Hin) as [y [Hy Hyx]].
        { simpl. rewrite E. exact Hx. }
        exists y. split; [right; exact Hy | exact Hyx].
Qed.

Lemma drop_duplicates_distinct (seen : list fv) (l : list srow) :
  ForallOrdPairs (fun r s => dup_eqb (corr r) (corr s) = false) (drop_duplicates seen l).
Proof.
  revert seen. induction l as [|r rest IH]; intros seen; simpl; [constructor|].
  destruct (seen_value (corr r) seen); [apply IH|].
  constructor; [|apply IH].
  apply Forall_forall. intros y Hy.
  destruct (drop_duplicates_first _ _ _ Hy) as [Hs _].
  simpl in Hs. apply orb_false_iff in Hs as [Hyr _].
  rewrite dup_eqb_sym. exact Hyr.
Qed.

Lemma in_kept_stack (thr : Q) (cols : list string) (M : string -> string -> fv) (x : srow) :
  In x (filter (keep_row thr) (stack cols M)) <->
  exists a b, In a cols /\ In b cols /\ a <> b /\ x = mk_srow a b (M a b) /\
              fv_gt_q (M a b) thr = true.
Proof.
  rewrite filter_In, in_stack. split.
  - intros [[a [b [Ha [Hb [Hx _]]]]] Hk]. subst x. unfold keep_row in Hk. simpl in Hk.
    apply andb_true_iff in Hk as [Hne Hgt]. apply negb_true_iff, String.eqb_neq in Hne.
    exists a, b. auto.
  - intros [a [b [Ha [Hb [Hne [Hx Hgt]]]]]]. subst x. split.
    + exists a, b. repeat split; auto. destruct (M a b); simpl in *; congruence.
    + unfold keep_row. simpl. rewrite Hgt. apply String.eqb_neq in Hne. rewrite Hne. reflexivity.
Qed.

(** Every row of the extracted table is an off-diagonal entry of the matrix
    over the given columns, with its own coefficient, above the threshold. *)
Theorem high_correlations_rows_sound (thr : Q) (cols : list string) (M : string -> string -> fv)
  (r : srow) :
  In r (high_correlations_at thr cols M) ->
  In (var1 r) cols /\ In (var2 r) cols /\ var1 r <> var2 r /\
  corr r = M (var1 r) (var2 r) /\ fv_gt_q (corr r) thr = true.
Proof.
  unfold high_correlations_at. intros H. apply drop_duplicates_sub, in_kept_stack in H.
  destruct H as [a [b [Ha [Hb [Hne [Hr Hgt]]]]]]. subst r. simpl. auto.
Qed.

Lemma high_correlations_rows_sound_witness :
  In "A"%string ["A"; "B"; "C"]%string /\ In "B"%string ["A"; "B"; "C"]%string /\
  "A"%string <> "B"%string /\ Fin (6 # 10) = abc_matrix "A" "B" /\ fv_gt_q (Fin (6 # 10)) (1 # 2) = true.
Proof.
  apply (high_correlations_rows_sound (1 # 2) ["A"; "B"; "C"]%string abc_matrix
           (mk_srow "A" "B" (Fin (6 # 10)))).
  vm_compute. left. reflexivity.
Defined.

(** Every coefficient above the threshold between two distinct columns is
    represented in the table: some retained row carries the same value
    (possibly under another pair of columns). *)
Theorem high_correlations_values_complete (thr : Q) (cols : list string)
  (M : string -> string -> fv) (a b : string) :
  In a cols -> In b cols -> a <> b -> fv_gt_q (M a b) thr = true ->
  exists r, In r (high_correlations_at thr cols M) /\ dup_eqb (corr r) (M a b) = true.
Proof.
  intros Ha Hb Hne Hgt. unfold high_correlations_at.
  destruct (drop_duplicates_complete [] (filter (keep_row thr) (stack cols M))
              (mk_srow a b (M a b))) as [y [Hy Hyx]].
  - apply in_kept_stack. exists a, b. auto.
  - reflexivity.
  - exists y. auto.
Qed.

Lemma high_correlations_values_complete_witness :
  exists r, In r (high_correlations_at (1 # 2) ["A"; "B"; "C"]%string abc_matrix) /\
            dup_eqb (corr r) (abc_matrix "A" "C") = true.
Proof.
  apply (high_correlations_values_complete (1 # 2) ["A"; "B"; "C"]%string abc_matrix "A" "C").
  - vm_compute. auto.
  - vm_compute. auto.
  - discriminate.
  - vm_compute. reflexivity.
Defined.

(** No two rows of the table carry the same coefficient. *)
Theorem high_correlations_values_distinct (thr : Q) (cols : list string)
  (M : string -> string -> fv) :
  ForallOrdPairs (fun r s => dup_eqb (corr r) (corr s) = false) (high_correlations_at thr cols M).
Proof. apply drop_duplicates_distinct. Qed.

Lemma nodup_nil_iff (l : list string) : nodup String.string_dec l = [] <-> l = [].
Proof.
  split; [|intros ->; reflexivity].
  intros H. destruct l as [|a l]; auto.
  assert (Ha : In a (nodup String.string_dec (a :: l))) by (apply nodup_In; left; auto).
  rewrite H in Ha. destruct Ha.
Qed.

(** The heatmap branch (line 291) is skipped, and the "no correlations"
    message shown, exactly when no two distinct numeric columns have a
    coefficient above 0.5. *)
Theorem correlated_columns_empty_iff (cols : list string) (M : string -> string -> fv) :
  correlated_columns cols M = [] <->
  forall a b, In a cols -> In b cols -> a <> b -> fv_gt_q (M a b) (1 # 2) = false.
Proof.
  unfold correlated_columns. rewrite nodup_nil_iff. split.
  - intros H a b Ha Hb Hne. destruct (fv_gt_q (M a b) (1 # 2)) eqn:E; auto.
    destruct (high_correlations_values_complete (1 # 2) cols M a b Ha Hb Hne E) as [r [Hr _]].
    unfold high_correlations in H. destruct (high_correlations_at (1 # 2) cols M); [destruct Hr|].
    discriminate.
  - intros H. unfold high_correlations.
    destruct (high_correlations_at (1 # 2) cols M) as [|r rest] eqn:E; [reflexivity|].
    destruct (high_correlations_rows_sound (1 # 2) cols M r) as [H1 [H2 [H3 [H4 H5]]]].
    { rewrite E. left. reflexivity. }
    rewrite H4, H in H5 by auto. discriminate.
Qed.

(** Every column shown in the heatmap is a numeric column with a partner
    column it correlates with above 0.5 (in one orientation). *)
Theorem correlated_columns_sound (cols : list string) (M : string -> string -> fv) (c : string) :
  In c (correlated_columns cols M) ->
  In c cols /\ exists d, In d cols /\ d <> c /\
    (fv_gt_q (M c d) (1 # 2) = true \/ fv_gt_q (M d c) (1 # 2) = true).
Proof.
  unfold correlated_columns. rewrite nodup_In, in_app_iff, !in_map_iff.
  intros [[r [Hc Hr]] | [r [Hc Hr]]]; subst c;
    destruct (high_correlations_rows_sound (1 # 2) cols M r Hr) as [H1 [H2 [H3 [H4 H5]]]];
    rewrite H4 in H5.
  - split; auto. exists (var2 r). auto.
  - split; auto. exists (var1 r). auto.
Qed.

Lemma correlated_columns_sound_witness :
  In "B"%string (correlated_columns ["A"; "B"; "C"]%string abc_matrix) /\
  (In "B"%string ["A"; "B"; "C"]%string /\ exists d, In d ["A"; "B"; "C"]%string /\ d <> "B"%string /\
    (fv_gt_q (abc_matrix "B" d) (1 # 2) = true \/ fv_gt_q (abc_matrix d "B") (1 # 2) = true)).
Proof.
  assert (H : In "B"%string (correlated_columns ["A"; "B"; "C"]%string abc_matrix))
    by (vm_compute; auto).
  split; [exact H | exact (correlated_columns_sound ["A"; "B"; "C"]%string abc_matrix "B" H)].
Defined.

End HighCorrExtra.

Module PearsonExtra.
Import Pearson B64Facts.

Lemma fv_mul_comm (a b : fv) : fv_mul a b = fv_mul b a.
Proof. destruct a, b; simpl; auto. rewrite Qmult_comm_syn. reflexivity. Qed.

(** netlib's [ddot] is symmetric in its arguments. *)
Lemma ref_ddot_comm (a b : list fv) : ref_ddot a b = ref_ddot b a.
Proof.
  unfold ref_ddot. generalize (Fin 0). revert b.
  induction a as [|u a IH]; intros [|v b] acc; simpl; auto.
  rewrite fv_mul_comm. apply IH.
Qed.

(** [pearsonr] is symmetric: swapping the two samples gives the same
    coefficient, p-value or error, for a [ddot] that is symmetric. *)
Theorem pearsonr_sym (K : kernels) (x y : list fv) :
  (forall a b, ddot K a b = ddot K b a) -> pearsonr K x y = pearsonr K y x.
Proof.
  intros Hd. unfold pearsonr. cbv zeta. rewrite (Nat.eqb_sym (List.length y)).
  destruct (Nat.eqb_spec (List.length x) (List.length y)) as [E|E]; simpl negb; cbv iota; auto.
  rewrite <- E, (orb_comm (constant y)).
  destruct (Nat.ltb (List.length x) 2); auto.
  destruct (constant x || constant y); auto.
  destruct (Nat.eqb (List.length x) 2).
  - rewrite fv_mul_comm. reflexivity.
  - destruct (forallb isfinite (centred x)), (forallb isfinite (centred y)); simpl; auto.
    rewrite Hd. reflexivity.
Qed.

Lemma pearsonr_sym_witness :
  pearsonr netlib_kernels [Fin 1; Fin 2; Fin 4] [Fin 1; Fin 3; Fin 2] =
  pearsonr netlib_kernels [Fin 1; Fin 3; Fin 2] [Fin 1; Fin 2; Fin 4].
Proof. apply pearsonr_sym. intros a b. exact (ref_ddot_comm a b). Defined.

Lemma sign_fin (d : Q) : ~ (d == 0)%Q ->
  fv_sign (Fin d) = Fin (if Qlt_le_dec 0 d then 1 else -1)%Q.
Proof.
  intros Hd. simpl.
  destruct (Qeq_bool d 0) eqn:E; [apply Qeq_bool_iff in E; contradiction|].
  destruct (Qle_bool d 0) eqn:F, (Qlt_le_dec 0 d) as [L|L]; auto.
  - apply Qle_bool_iff in F. exfalso. apply (Qlt_not_le _ _ L F).
  - exfalso. apply Qle_bool_iff in L. congruence.
Qed.

Lemma neg_of_nonpos (d : Q) : ~ (d == 0)%Q -> (d <= 0)%Q -> (d < 0)%Q.
Proof.
  intros Hd L. apply Qle_lteq in L as [L | L]; [exact L|]. contradiction.
Qed.

Lemma sign_prod (dx dy : Q) : ~ (dx == 0)%Q -> ~ (dy == 0)%Q ->
  fv_mul (Fin (if Qlt_le_dec 0 dx then 1 else -1)%Q) (Fin (if Qlt_le_dec 0 dy then 1 else -1)%Q) =
  (if Qlt_le_dec 0 (dx * dy) then Fin 1 else Fin (-1)).
Proof.
  intros Hx Hy.
  destruct (Qlt_le_dec 0 dx) as [Lx|Lx], (Qlt_le_dec 0 dy) as [Ly|Ly],
    (Qlt_le_dec 0 (dx * dy)) as [L|L]; try reflexivity; exfalso;
    try (apply neg_of_nonpos in Lx; [|exact Hx]); try (apply neg_of_nonpos in Ly; [|exact Hy]); nra.
Qed.

(** With exactly two rows of distinct finite doubles in each sample,
    [pearsonr] returns coefficient 1 when both samples change in the same
    direction and -1 otherwise, with p-value 1. *)
Theorem pearsonr_two_rows_sign (K : kernels) (x0 x1 y0 y1 : Q) :
  is_double x0 = true -> is_double x1 = true -> is_double y0 = true -> is_double y1 = true ->
  ~ (x0 == x1)%Q -> ~ (y0 == y1)%Q ->
  pearsonr K [Fin x0; Fin x1] [Fin y0; Fin y1] =
  Result (if Qlt_le_dec 0 ((x1 - x0) * (y1 - y0)) then Fin 1 else Fin (-1)) (Fin 1).
Proof.
  intros Dx0 Dx1 Dy0 Dy1 Hx Hy.
  assert (Cx : constant [Fin x0; Fin x1] = false).
  { simpl. rewrite (proj2 (Qeq_bool_iff x0 x0) (Qeq_refl x0)). simpl.
    destruct (Qeq_bool x1 x0) eqn:E; auto. apply Qeq_bool_iff in E. exfalso. apply Hx. symmetry. exact E. }
  assert (Cy : constant [Fin y0; Fin y1] = false).
  { simpl. rewrite (proj2 (Qeq_bool_iff y0 y0) (Qeq_refl y0)). simpl.
    destruct (Qeq_bool y1 y0) eqn:E; auto. apply Qeq_bool_iff in E. exfalso. apply Hy. symmetry. exact E. }
  unfold pearsonr. cbv zeta. cbn [List.length Nat.eqb negb Nat.ltb Nat.leb nth]. rewrite Cx, Cy. cbn [orb].
  assert (Dx : ~ (x1 - x0 == 0)%Q).
  { intros E. apply Hx. setoid_replace x1 with ((x1 - x0) + x0)%Q by ring. rewrite E. ring. }
  assert (Dy : ~ (y1 - y0 == 0)%Q).
  { intros E. apply Hy. setoid_replace y1 with ((y1 - y0) + y0)%Q by ring. rewrite E. ring. }
  rewrite (sub_double_sign x0 x1 Dx0 Dx1 Hx), (sub_double_sign y0 y1 Dy0 Dy1 Hy).
  rewrite (sign_fin _ Dx), (sign_fin _ Dy), (sign_prod _ _ Dx Dy). reflexivity.
Qed.

Lemma pearsonr_two_rows_sign_witness :
  pearsonr netlib_kernels [Fin 1; Fin 2] [Fin 5; Fin 3] = Result (Fin (-1)) (Fin 1).
Proof.
  rewrite (pearsonr_two_rows_sign netlib_kernels 1 2 5 3).
  1: { destruct (Qlt_le_dec 0 ((2 - 1) * (3 - 5))) as [L|L]; [|reflexivity].
       exfalso. vm_compute in L. discriminate. }
  1-4: reflexivity.
  all: intros H; vm_compute in H; discriminate.
Defined.

End PearsonExtra.

Module CorrMatrixExtra.
Import Pearson CorrMatrix B64Facts CorrMatrixFacts.

Definition valid_pair (p : fv * fv) : bool := isfinite (fst p) && isfinite (snd p).

Lemma fold_accumulate_filter (l : list (fv * fv)) (s : welford) :
  fold_left accumulate l s = fold_left accumulate (filter valid_pair l) s.
Proof.
  revert s. induction l as [|p l IH]; intros s; simpl; auto.
  replace (accumulate s p) with
    (if valid_pair p then welford_step s (fst p) (snd p) else s) by reflexivity.
  destruct (valid_pair p) eqn:E; simpl; rewrite IH; auto.
  f_equal. unfold accumulate. unfold valid_pair in E. rewrite E. reflexivity.
Qed.

Lemma combine_map_fst_snd {A B} (l : list (A * B)) : combine (map fst l) (map snd l) = l.
Proof. induction l as [|[a b] l IH]; simpl; congruence. Qed.

(** Pairwise deletion: an entry of [corr] depends only on the rows where
    both columns are finite; removing the others changes nothing. *)
Theorem nancorr_pair_pairwise (cx cy : list fv) :
  nancorr_pair cx cy = nancorr_pair (map fst (valid_rows cx cy)) (map snd (valid_rows cx cy)).
Proof.
  unfold nancorr_pair. rewrite combine_map_fst_snd.
  rewrite (fold_accumulate_filter (combine cx cy) welford0). reflexivity.
Qed.

(** With fewer than two rows where both columns are finite, the entry is
    NaN: no row leaves no observation, one row leaves a zero divisor. *)
Theorem nancorr_pair_few_rows_nan (cx cy : list fv) :
  forallb fv_double cx = true -> forallb fv_double cy = true ->
  (valid_pair_count cx cy < 2)%nat -> nancorr_pair cx cy = NaN.
Proof.
  unfold valid_pair_count, valid_rows, nancorr_pair. intros Hx Hy H. cbv zeta.
  rewrite (fold_accumulate_filter (combine cx cy) welford0). unfold valid_pair.
  destruct (filter (fun p => isfinite (fst p) && isfinite (snd p)) (combine cx cy))
    as [|[u v] [|q l]] eqn:Ef; simpl in H |- *; try lia; [reflexivity|].
  assert (Hin : In (u, v) (combine cx cy) /\ isfinite u && isfinite v = true).
  { apply (filter_In (fun p => isfinite (fst p) && isfinite (snd p))). rewrite Ef. simpl. auto. }
  destruct Hin as [Hin Hf].
  pose proof (in_combine_l _ _ _ _ Hin) as Hu. pose proof (in_combine_r _ _ _ _ Hin) as Hv.
  rewrite forallb_forall in Hx, Hy. specialize (Hx u Hu). specialize (Hy v Hv).
  destruct u as [a| | |], v as [b| | |]; try discriminate.
  unfold accumulate. cbn [fst snd isfinite andb]. rewrite (step0 a b Hx Hy). reflexivity.
Qed.

Lemma nancorr_pair_few_rows_nan_witness :
  nancorr_pair [Fin 1; NaN; Fin 3] [Fin 2; Fin 5; PInf] = NaN.
Proof. apply nancorr_pair_few_rows_nan; [reflexivity | reflexivity | vm_compute; lia]. Defined.





End CorrMatrixExtra.
